(** * react-signature-pad-wrapper: the rate limiter and the canvas component

    A shallow embedding of [dist/react-signature-pad-wrapper.js]:
    - [Js]: the JavaScript values the code inspects ([typeof], truthiness,
      [===]) and a state-and-exception monad for its statements;
    - [Limiter]: [throttle], [debounce] and the [wrapper] closure they return,
      run against a table of host timers;
    - [Pad]: the [SignaturePad] component ([componentDidMount],
      [componentWillUnmount], [scaleCanvas], the proxied engine methods and the
      [onBegin]/[onEnd] setters);
    - [Obj]: plain objects, [_extends] and [render]; [Settings]: the seven
      properties handed through to the engine;
    - [LimiterFacts], [PadFacts], [LimiterMore], [PadMore], [ObjFacts] and
      [SettingsFacts]: what is proved of them.

    Time is in integer milliseconds ([Z]); pixel dimensions and the device pixel
    ratio are rationals ([Q]), so rounding of doubles and [NaN] are outside the
    model. *)

From Stdlib Require Import ZArith QArith Qminmax List String Bool Lia.
Import ListNotations.

(* ================================================================= *)
(** ** JavaScript values and statements *)

Module Js.

Inductive value : Type :=
| VUndefined
| VNull
| VBool (b : bool)
| VNum (q : Q)
| VStr (s : string)
| VFun (f : nat)        (* a function object, named by its identity *)
| VObj (o : nat).       (* any other object, named by its identity *)

Definition typeof (v : value) : string :=
  match v with
  | VUndefined => "undefined"
  | VNull => "object"
  | VBool _ => "boolean"
  | VNum _ => "number"
  | VStr _ => "string"
  | VFun _ => "function"
  | VObj _ => "object"
  end.

(** [ToBoolean]: what [if (v)], [!v], [v && ...] and [v ? a : b] test. *)
Definition truthy (v : value) : bool :=
  match v with
  | VUndefined | VNull => false
  | VBool b => b
  | VNum q => negb (Qeq_bool q 0)
  | VStr s => negb (String.eqb s "")
  | VFun _ | VObj _ => true
  end.

(** [a === b]. *)
Definition strict_eq (a b : value) : bool :=
  match a, b with
  | VUndefined, VUndefined => true
  | VNull, VNull => true
  | VBool x, VBool y => Bool.eqb x y
  | VNum x, VNum y => Qeq_bool x y
  | VStr x, VStr y => String.eqb x y
  | VFun x, VFun y => Nat.eqb x y
  | VObj x, VObj y => Nat.eqb x y
  | _, _ => false
  end.

Definition is_boolean (v : value) : bool := String.eqb (typeof v) "boolean".

(** [fn && typeof fn === 'function'], as a condition. *)
Definition is_function (v : value) : bool :=
  truthy v && String.eqb (typeof v) "function".

Inductive error : Type :=
| TypeError                 (* calling a non-function, a property of undefined/null *)
| Error (msg : string).     (* [new Error(msg)] *)

Inductive completion (A : Type) : Type :=
| Normal (a : A)
| Throw (e : error).
Arguments Normal {A} a.
Arguments Throw {A} e.

(** A statement runs on a store [S]; what it wrote before throwing stays
    written. *)
Definition M (S A : Type) : Type := S -> S * completion A.

Definition ret {S A} (a : A) : M S A := fun s => (s, Normal a).

Definition bind {S A B} (m : M S A) (k : A -> M S B) : M S B :=
  fun s =>
    match m s with
    | (s1, Normal a) => k a s1
    | (s1, Throw e) => (s1, Throw e)
    end.

Definition throw {S A} (e : error) : M S A := fun s => (s, Throw e).
Definition gets {S A} (f : S -> A) : M S A := fun s => (s, Normal (f s)).
Definition modify {S} (f : S -> S) : M S unit := fun s => (f s, Normal tt).

(** [if (b) { m }] *)
Definition when {S} (b : bool) (m : M S unit) : M S unit :=
  if b then m else ret tt.

Definition threw {A} (c : completion A) : bool :=
  match c with Normal _ => false | Throw _ => true end.

End Js.

Declare Scope js_scope.
Delimit Scope js_scope with js.
Notation "x <- m ;; k" := (Js.bind m (fun x => k))
  (at level 61, m at next level, right associativity) : js_scope.
Notation "m ;; k" := (Js.bind m (fun _ => k))
  (at level 61, right associativity) : js_scope.

(* ================================================================= *)
(** ** The rate limiter: [throttle], [debounce], [wrapper] *)

Module Limiter.
Import Js.
Local Open Scope Z_scope.
Local Open Scope js_scope.

(** The variables [wrapper] closes over that never change once [throttle]
    has returned. *)
Record limiter : Type := {
  delay : Z;
  noTrailing : value;
  callback : value;
  debounceMode : value
}.

(** What a pending timeout runs: the [exec] closure of one [wrapper] call
    (with that call's [this] and [arguments]), or its [clear] closure. *)
Inductive action : Type :=
| ActExec (self : value) (args : list value)
| ActClear.

Record timer : Type := { due : Z; act : action }.

(** One execution of the callback: [callback.apply(self, args)] at a time. *)
Record call : Type := {
  call_time : Z;
  call_fn : nat;
  call_this : value;
  call_args : list value
}.

(** The store a limiter runs on.  [timers] is the host's timeout table
    restricted to the timeouts this limiter created, oldest first; handles
    are positive and never reused.  [timeoutID] and [lastExec] are the two
    [var]s of [throttle]; [calls] records the callback's executions. *)
Record state : Type := {
  now : Z;
  timers : list (positive * timer);
  fresh : positive;
  timeoutID : option positive;
  lastExec : Z;
  calls : list call
}.

Definition set_now (t : Z) (s : state) : state :=
  {| now := t; timers := timers s; fresh := fresh s;
     timeoutID := timeoutID s; lastExec := lastExec s; calls := calls s |}.
Definition set_timers (l : list (positive * timer)) (s : state) : state :=
  {| now := now s; timers := l; fresh := fresh s;
     timeoutID := timeoutID s; lastExec := lastExec s; calls := calls s |}.
Definition set_fresh (p : positive) (s : state) : state :=
  {| now := now s; timers := timers s; fresh := p;
     timeoutID := timeoutID s; lastExec := lastExec s; calls := calls s |}.
Definition set_timeoutID (o : option positive) (s : state) : state :=
  {| now := now s; timers := timers s; fresh := fresh s;
     timeoutID := o; lastExec := lastExec s; calls := calls s |}.
Definition set_lastExec (t : Z) (s : state) : state :=
  {| now := now s; timers := timers s; fresh := fresh s;
     timeoutID := timeoutID s; lastExec := t; calls := calls s |}.
Definition set_calls (l : list call) (s : state) : state :=
  {| now := now s; timers := timers s; fresh := fresh s;
     timeoutID := timeoutID s; lastExec := lastExec s; calls := l |}.

(** The store when [throttle] returns at time [t0]: [var timeoutID;]
    and [var lastExec = 0;]. *)
Definition init (t0 : Z) : state :=
  {| now := t0; timers := []; fresh := 1%positive;
     timeoutID := None; lastExec := 0; calls := [] |}.

(** *** Host timers *)

(** [setTimeout(f, ms)]: a negative [ms] counts as 0. *)
Definition setTimeout (a : action) (ms : Z) : M state positive :=
  fun s =>
    let id := fresh s in
    (set_fresh (Pos.succ id)
       (set_timers (timers s ++ [(id, {| due := now s + Z.max 0 ms; act := a |})]) s),
     Normal id).

(** [clearTimeout(id)]: nothing happens when [id] is not pending. *)
Definition clearTimeout (id : positive) : M state unit :=
  modify (fun s =>
    set_timers (filter (fun e => negb (Pos.eqb (fst e) id)) (timers s)) s).

(** *** [throttle] and [debounce] *)

Definition throttle (delay : Z) (noTrailing callback debounceMode : value) : limiter :=
  if negb (is_boolean noTrailing) then
    {| delay := delay; noTrailing := VUndefined;
       callback := noTrailing; debounceMode := callback |}
  else
    {| delay := delay; noTrailing := noTrailing;
       callback := callback; debounceMode := debounceMode |}.

(** A parameter the caller leaves out is [VUndefined]. *)
Definition debounce (delay : Z) (atBegin callback : value) : limiter :=
  if strict_eq callback VUndefined
  then throttle delay atBegin (VBool false) VUndefined
  else throttle delay callback (VBool (negb (strict_eq atBegin (VBool false)))) VUndefined.

(** *** The closures of one [wrapper] call *)

Section Wrapper.
Variable c : limiter.

(** [function exec ()] *)
Definition exec (self : value) (args : list value) : M state unit :=
  t <- gets now ;;
  modify (set_lastExec t) ;;
  match callback c with
  | VFun f =>
      modify (fun s => set_calls (calls s ++
        [{| call_time := t; call_fn := f; call_this := self; call_args := args |}]) s)
  | _ => throw TypeError
  end.

(** [function clear ()] *)
Definition clear : M state unit := modify (set_timeoutID None).

(** [if ( debounceMode && !timeoutID ) exec();] *)
Definition leading_exec (self : value) (args : list value) : M state unit :=
  tid <- gets timeoutID ;;
  when (truthy (debounceMode c) && negb (match tid with Some _ => true | None => false end))
       (exec self args).

(** [if ( timeoutID ) clearTimeout(timeoutID);] *)
Definition clear_existing : M state unit :=
  tid <- gets timeoutID ;;
  match tid with
  | Some id => clearTimeout id
  | None => ret tt
  end.

(** [if ( debounceMode === undefined && elapsed > delay ) exec();
     else if ( noTrailing !== true ) timeoutID = setTimeout(...);] *)
Definition exec_or_schedule (elapsed : Z) (self : value) (args : list value)
  : M state unit :=
  if strict_eq (debounceMode c) VUndefined && (delay c <? elapsed) then
    exec self args
  else if negb (strict_eq (noTrailing c) (VBool true)) then
    id <- setTimeout (if truthy (debounceMode c) then ActClear else ActExec self args)
                     (if strict_eq (debounceMode c) VUndefined
                      then delay c - elapsed else delay c) ;;
    modify (set_timeoutID (Some id))
  else ret tt.

(** [function wrapper ()], called with [this = self] and
    [arguments = args]. *)
Definition wrapper (self : value) (args : list value) : M state unit :=
  t <- gets now ;;
  le <- gets lastExec ;;
  let elapsed := t - le in
  leading_exec self args ;;
  clear_existing ;;
  exec_or_schedule elapsed self args.

(** *** The host firing timeouts *)

(** The pending timeout that is due first (the oldest one among equals). *)
Fixpoint earliest (l : list (positive * timer)) : option (positive * timer) :=
  match l with
  | [] => None
  | e :: r =>
      match earliest r with
      | Some e' => if due (snd e') <? due (snd e) then Some e' else Some e
      | None => Some e
      end
  end.

(** The host runs timeout [id]: it leaves the table, the clock is at its
    due time (or later), and its closure runs; an exception it throws goes
    to the host and is not seen by the limiter's callers. *)
Definition fire (id : positive) (tm : timer) (s : state) : state :=
  let s1 := set_now (Z.max (now s) (due tm))
              (set_timers (filter (fun e => negb (Pos.eqb (fst e) id)) (timers s)) s) in
  match act tm with
  | ActExec self args => fst (exec self args s1)
  | ActClear => fst (clear s1)
  end.

Fixpoint fire_due (fuel : nat) (t : Z) (s : state) : state :=
  match fuel with
  | O => s
  | S k =>
      match earliest (timers s) with
      | Some (id, tm) => if due tm <=? t then fire_due k t (fire id tm s) else s
      | None => s
      end
  end.

(** Time passes until [t]: every timeout due by then fires, in order. *)
Definition advance (t : Z) (s : state) : state :=
  let s1 := fire_due (List.length (timers s)) t s in
  set_now (Z.max (now s1) t) s1.

(** What happens to a limiter: it is called, or time passes. *)
Inductive event : Type :=
| Call (self : value) (args : list value)
| Tick (t : Z).

Definition step (s : state) (e : event) : state :=
  match e with
  | Call self args => fst (wrapper self args s)
  | Tick t => advance t s
  end.

Definition run (evs : list event) (s : state) : state := fold_left step evs s.

(** A burst: calls at the given times, each with its [this] and
    [arguments]. *)
Fixpoint burst (l : list (Z * value * list value)) : list event :=
  match l with
  | [] => []
  | (t, self, args) :: r => Tick t :: Call self args :: burst r
  end.

End Wrapper.

(** *** What the statements about a limiter speak of *)

(** The limiter's invariant: the table holds no timeout of this limiter, or
    exactly one, and then [timeoutID] is its handle. *)
Definition at_most_one (s : state) : Prop :=
  match timers s with
  | [] => True
  | [(id, _)] => timeoutID s = Some id
  | _ => False
  end.

Definition executed (f : nat) (t : Z) (self : value) (args : list value) : call :=
  {| call_time := t; call_fn := f; call_this := self; call_args := args |}.

(** The call ran the callback before it returned, and left no timeout. *)
Definition ran_now (c : limiter) (f : nat) (s : state)
           (self : value) (args : list value) : Prop :=
  snd (wrapper c self args s) = Normal tt /\
  calls (fst (wrapper c self args s)) = calls s ++ [executed f (now s) self args] /\
  lastExec (fst (wrapper c self args s)) = now s /\
  timers (fst (wrapper c self args s)) = [].

(** The call ran nothing; it left exactly one timeout, due at [t], that
    carries this call's [this] and [arguments] and, if no other call comes
    first, runs the callback with them at [t]. *)
Definition deferred_to (c : limiter) (f : nat) (t : Z) (s : state)
           (self : value) (args : list value) : Prop :=
  snd (wrapper c self args s) = Normal tt /\
  calls (fst (wrapper c self args s)) = calls s /\
  timers (fst (wrapper c self args s)) =
    [(fresh s, {| due := t; act := ActExec self args |})] /\
  timeoutID (fst (wrapper c self args s)) = Some (fresh s) /\
  forall T, t <= T ->
    calls (advance c T (fst (wrapper c self args s))) =
    calls s ++ [executed f t self args].

(** The call ran nothing and left no timeout. *)
Definition dropped (c : limiter) (s : state)
           (self : value) (args : list value) : Prop :=
  snd (wrapper c self args s) = Normal tt /\
  calls (fst (wrapper c self args s)) = calls s /\
  timers (fst (wrapper c self args s)) = [].

(** A call in throttle mode, as the specification words it: at once when
    more than [delay] has passed since the last execution, deferred to
    [lastExec + delay] otherwise. *)
Definition throttle_call (c : limiter) (f : nat) (s : state)
           (self : value) (args : list value) : Prop :=
  if delay c <? now s - lastExec s
  then ran_now c f s self args
  else deferred_to c f (lastExec s + delay c) s self args.

(** Calls that follow one another closely: each comes less than [d] after
    the one before (which was at [prev]). *)
Fixpoint spaced (d prev : Z) (l : list (Z * value * list value)) : Prop :=
  match l with
  | [] => True
  | (t, _, _) :: r => prev <= t < prev + d /\ spaced d t r
  end.

(** Two limiters that cannot be told apart: a call does the same with
    either, and so does the passing of time. *)
Definition same_behaviour (c1 c2 : limiter) : Prop :=
  forall s,
    (forall self args, wrapper c1 self args s = wrapper c2 self args s) /\
    (forall t, advance c1 t s = advance c2 t s).

End Limiter.

(* ================================================================= *)
(** ** The [SignaturePad] component *)

Module Pad.
Import Js.
Local Open Scope Q_scope.
Local Open Scope js_scope.

(** The canvas element, as far as the component and the engine touch it.
    Assigning [width] or [height] resets the bitmap and the 2d context's
    transform, as the platform does. *)
Record canvas : Type := {
  offsetWidth : Q;
  offsetHeight : Q;
  el_width : Q;
  el_height : Q;
  style_width : string;
  bitmap : string;            (* the pixels, as the data URL that encodes them *)
  ctx_scale : Q * Q           (* the 2d context's scale factors *)
}.

Definition blank : string := "".

(** Modelled from the spec: the drawing engine ([signature_pad], an external
    library that is not part of the sources).  Its state is what the
    contracts of section 6 of the specification speak of: whether it reports
    empty, its stroke data, whether input capture is on, and the [onBegin]
    and [onEnd] properties.  It draws on the canvas it was attached to. *)
Record engine : Type := {
  pad_empty : bool;
  pad_data : value;
  pad_listening : bool;
  pad_onBegin : value;
  pad_onEnd : value
}.

Record props : Type := {
  width : option Q;
  height : option Q;
  options : list (string * value);
  redrawOnResize : bool;
  debounceInterval : Z
}.

Inductive handler : Type :=
| CallResizeHandler           (* this._callResizeHandler *)
| Foreign (n : nat).          (* somebody else's listener *)

Inductive method : Type :=
| MIsEmpty | MClear | MFromDataURL (d : value) | MToDataURL (mime : value)
| MFromData (d : value) | MToData | MOff | MOn.

(** What the component does to its collaborators, in order. *)
Inductive effect : Type :=
| SetStyleWidth (s : string)
| SetWidth (q : Q)
| SetHeight (q : Q)
| SetState (w h : Q)
| CtxScale (x y : Q)
| AddListener
| RemoveListener
| NewSigPad
| PadCall (m : method)
| PadSet (name : string) (v : value).

(** The store: the component instance, the one canvas element React renders
    for it (the engine keeps its own reference to the same element), and the
    parts of [window] the component uses. *)
Record world : Type := {
  this_props : props;
  element : canvas;
  _canvas : bool;                    (* this._canvas refers to [element] *)
  _signaturePad : option engine;
  canvasWidth : Q;                   (* this.state.canvasWidth *)
  canvasHeight : Q;                  (* this.state.canvasHeight *)
  devicePixelRatio : option Q;       (* window.devicePixelRatio *)
  listeners : list handler;          (* window's 'resize' listeners *)
  trace : list effect
}.

Definition set_element (c : canvas) (w : world) : world :=
  {| this_props := this_props w; element := c; _canvas := _canvas w;
     _signaturePad := _signaturePad w; canvasWidth := canvasWidth w;
     canvasHeight := canvasHeight w; devicePixelRatio := devicePixelRatio w;
     listeners := listeners w; trace := trace w |}.
Definition set_canvas_ref (b : bool) (w : world) : world :=
  {| this_props := this_props w; element := element w; _canvas := b;
     _signaturePad := _signaturePad w; canvasWidth := canvasWidth w;
     canvasHeight := canvasHeight w; devicePixelRatio := devicePixelRatio w;
     listeners := listeners w; trace := trace w |}.
Definition set_signaturePad (e : option engine) (w : world) : world :=
  {| this_props := this_props w; element := element w; _canvas := _canvas w;
     _signaturePad := e; canvasWidth := canvasWidth w;
     canvasHeight := canvasHeight w; devicePixelRatio := devicePixelRatio w;
     listeners := listeners w; trace := trace w |}.
Definition set_state (cw ch : Q) (w : world) : world :=
  {| this_props := this_props w; element := element w; _canvas := _canvas w;
     _signaturePad := _signaturePad w; canvasWidth := cw;
     canvasHeight := ch; devicePixelRatio := devicePixelRatio w;
     listeners := listeners w; trace := trace w |}.
Definition set_listeners (l : list handler) (w : world) : world :=
  {| this_props := this_props w; element := element w; _canvas := _canvas w;
     _signaturePad := _signaturePad w; canvasWidth := canvasWidth w;
     canvasHeight := canvasHeight w; devicePixelRatio := devicePixelRatio w;
     listeners := l; trace := trace w |}.
Definition log (e : effect) (w : world) : world :=
  {| this_props := this_props w; element := element w; _canvas := _canvas w;
     _signaturePad := _signaturePad w; canvasWidth := canvasWidth w;
     canvasHeight := canvasHeight w; devicePixelRatio := devicePixelRatio w;
     listeners := listeners w; trace := trace w ++ [e] |}.

(** *** The canvas element *)

Definition with_width (q : Q) (c : canvas) : canvas :=
  {| offsetWidth := offsetWidth c; offsetHeight := offsetHeight c;
     el_width := q; el_height := el_height c; style_width := style_width c;
     bitmap := blank; ctx_scale := (1, 1) |}.
Definition with_height (q : Q) (c : canvas) : canvas :=
  {| offsetWidth := offsetWidth c; offsetHeight := offsetHeight c;
     el_width := el_width c; el_height := q; style_width := style_width c;
     bitmap := blank; ctx_scale := (1, 1) |}.
Definition with_style_width (s : string) (c : canvas) : canvas :=
  {| offsetWidth := offsetWidth c; offsetHeight := offsetHeight c;
     el_width := el_width c; el_height := el_height c; style_width := s;
     bitmap := bitmap c; ctx_scale := ctx_scale c |}.
Definition with_bitmap (b : string) (c : canvas) : canvas :=
  {| offsetWidth := offsetWidth c; offsetHeight := offsetHeight c;
     el_width := el_width c; el_height := el_height c; style_width := style_width c;
     bitmap := b; ctx_scale := ctx_scale c |}.
Definition scaled (x y : Q) (c : canvas) : canvas :=
  {| offsetWidth := offsetWidth c; offsetHeight := offsetHeight c;
     el_width := el_width c; el_height := el_height c; style_width := style_width c;
     bitmap := bitmap c; ctx_scale := (fst (ctx_scale c) * x, snd (ctx_scale c) * y) |}.

(** [this._canvas.p]: a [TypeError] while [this._canvas] is unset. *)
Definition canvas_get {A} (p : canvas -> A) : M world A :=
  fun w => if _canvas w then (w, Normal (p (element w))) else (w, Throw TypeError).

(** [this._canvas.p = v], or a method of [this._canvas] that changes it. *)
Definition canvas_set (e : effect) (f : canvas -> canvas) : M world unit :=
  fun w => if _canvas w then (log e (set_element (f (element w)) w), Normal tt)
           else (w, Throw TypeError).

(** *** The engine *)

Module Engine.

Definition with_empty (b : bool) (e : engine) : engine :=
  {| pad_empty := b; pad_data := pad_data e; pad_listening := pad_listening e;
     pad_onBegin := pad_onBegin e; pad_onEnd := pad_onEnd e |}.
Definition with_data (d : value) (e : engine) : engine :=
  {| pad_empty := pad_empty e; pad_data := d; pad_listening := pad_listening e;
     pad_onBegin := pad_onBegin e; pad_onEnd := pad_onEnd e |}.
Definition with_listening (b : bool) (e : engine) : engine :=
  {| pad_empty := pad_empty e; pad_data := pad_data e; pad_listening := b;
     pad_onBegin := pad_onBegin e; pad_onEnd := pad_onEnd e |}.
Definition with_onBegin (v : value) (e : engine) : engine :=
  {| pad_empty := pad_empty e; pad_data := pad_data e; pad_listening := pad_listening e;
     pad_onBegin := v; pad_onEnd := pad_onEnd e |}.
Definition with_onEnd (v : value) (e : engine) : engine :=
  {| pad_empty := pad_empty e; pad_data := pad_data e; pad_listening := pad_listening e;
     pad_onBegin := pad_onBegin e; pad_onEnd := v |}.

Fixpoint lookup (k : string) (l : list (string * value)) : value :=
  match l with
  | [] => VUndefined
  | (k', v) :: r => if String.eqb k k' then v else lookup k r
  end.

(** Modelled from the spec: the engine's methods ([signature_pad] is not
    part of the sources).  [toDataURL] serialises the content,
    [fromDataURL] restores a serialised content, [clear] empties the
    engine, [isEmpty] reports it; [toData]/[fromData] read and write the
    stroke data and [on]/[off] switch input capture. *)
Definition isEmpty (e : engine) (c : canvas) : engine * canvas * bool :=
  (e, c, pad_empty e).
Definition clear (e : engine) (c : canvas) : engine * canvas * unit :=
  (with_data VUndefined (with_empty true e), with_bitmap blank c, tt).
Definition fromDataURL (d : value) (e : engine) (c : canvas) : engine * canvas * unit :=
  (with_empty false e,
   match d with VStr s => with_bitmap s c | _ => c end, tt).
Definition toDataURL (mime : value) (e : engine) (c : canvas) : engine * canvas * string :=
  (e, c, bitmap c).
Definition fromData (d : value) (e : engine) (c : canvas) : engine * canvas * unit :=
  (with_data d (with_empty false e), c, tt).
Definition toData (e : engine) (c : canvas) : engine * canvas * value :=
  (e, c, pad_data e).
Definition off (e : engine) (c : canvas) : engine * canvas * unit :=
  (with_listening false e, c, tt).
Definition on (e : engine) (c : canvas) : engine * canvas * unit :=
  (with_listening true e, c, tt).

(** Modelled from the spec: [new SigPad(canvas, options)] attaches an
    empty engine that captures input, with the callbacks of [options]. *)
Definition create (opts : list (string * value)) (c : canvas) : engine * canvas :=
  ({| pad_empty := true; pad_data := VUndefined; pad_listening := true;
      pad_onBegin := lookup "onBegin" opts; pad_onEnd := lookup "onEnd" opts |},
   with_bitmap blank c).

End Engine.

(** [this._signaturePad.m(...)]: a [TypeError] while [this._signaturePad] is
    undefined. *)
Definition pad_call {A} (m : method) (f : engine -> canvas -> engine * canvas * A)
  : M world A :=
  fun w =>
    match _signaturePad w with
    | Some e =>
        let '(e', c', a) := f e (element w) in
        (log (PadCall m) (set_element c' (set_signaturePad (Some e') w)), Normal a)
    | None => (w, Throw TypeError)
    end.

(** [this._signaturePad.name = v] *)
Definition pad_assign (name : string) (v : value) (f : value -> engine -> engine)
  : M world unit :=
  fun w =>
    match _signaturePad w with
    | Some e => (log (PadSet name v) (set_signaturePad (Some (f v e)) w), Normal tt)
    | None => (w, Throw TypeError)
    end.

(** *** [window] and React *)

Definition handler_eqb (a b : handler) : bool :=
  match a, b with
  | CallResizeHandler, CallResizeHandler => true
  | Foreign x, Foreign y => Nat.eqb x y
  | _, _ => false
  end.

(** [window.addEventListener('resize', h)]: a listener is registered once. *)
Definition addEventListener (h : handler) : M world unit :=
  modify (fun w =>
    log AddListener
      (if existsb (handler_eqb h) (listeners w) then w
       else set_listeners (listeners w ++ [h]) w)).

(** [window.removeEventListener('resize', h)] *)
Definition removeEventListener (h : handler) : M world unit :=
  modify (fun w =>
    log RemoveListener
      (set_listeners (filter (fun x => negb (handler_eqb h x)) (listeners w)) w)).

(** [this.setState({ canvasWidth, canvasHeight })]: the update is taken to
    be applied at once. *)
Definition setState (cw ch : Q) : M world unit :=
  modify (fun w => log (SetState cw ch) (set_state cw ch w)).

(** *** The component's methods *)

(** A falsy number: missing, or zero. *)
Definition truthy_num (o : option Q) : bool :=
  match o with
  | Some q => negb (Qeq_bool q 0)
  | None => false
  end.

(** [a || b] on numbers: [b] is evaluated only when [a] is falsy. *)
Definition or_else (a : option Q) (b : M world Q) : M world Q :=
  match a with
  | Some q => if Qeq_bool q 0 then b else ret q
  | None => b
  end.

Definition is_some {A} (o : option A) : bool :=
  match o with Some _ => true | None => false end.

Definition isEmpty : M world bool := pad_call MIsEmpty Engine.isEmpty.
Definition clear : M world unit := pad_call MClear Engine.clear.
Definition fromDataURL (base64String : value) : M world unit :=
  pad_call (MFromDataURL base64String) (Engine.fromDataURL base64String).
Definition toDataURL (mime : value) : M world string :=
  pad_call (MToDataURL mime) (Engine.toDataURL mime).
Definition fromData (data : value) : M world unit :=
  pad_call (MFromData data) (Engine.fromData data).
Definition toData : M world value := pad_call MToData Engine.toData.
Definition off : M world unit := pad_call MOff Engine.off.
Definition on : M world unit := pad_call MOn Engine.on.

(** The first three statements of [scaleCanvas]: [ratio], [width] and
    [height]. *)
Definition target : M world (Q * Q * Q) :=
  dpr <- gets devicePixelRatio ;;
  r <- or_else dpr (ret 1) ;;
  let ratio := Qmax r 1 in
  p <- gets this_props ;;
  w0 <- or_else (width p) (canvas_get offsetWidth) ;;
  let width := w0 * ratio in
  h0 <- or_else (height p) (canvas_get offsetHeight) ;;
  let height := h0 * ratio in
  ret (ratio, width, height).

(** [width === canvasWidth && height === canvasHeight] *)
Definition unchanged (width height : Q) (w : world) : bool :=
  Qeq_bool width (canvasWidth w) && Qeq_bool height (canvasHeight w).

Definition scaleCanvas : M world unit :=
  t <- target ;;
  let '(ratio, width, height) := t in
  same <- gets (unchanged width height) ;;
  if same then ret tt
  else
    p <- gets this_props ;;
    pad <- gets _signaturePad ;;
    data <- (if redrawOnResize p && is_some pad
             then (s <- toDataURL VUndefined ;; ret (VStr s))
             else ret VUndefined) ;;
    canvas_set (SetWidth width) (with_width width) ;;
    canvas_set (SetHeight height) (with_height height) ;;
    setState width height ;;
    canvas_set (CtxScale ratio ratio) (scaled ratio ratio) ;;
    pad <- gets _signaturePad ;;
    if redrawOnResize p && is_some pad then fromDataURL data
    else if is_some pad then clear
    else ret tt.

Definition handleResize : M world unit := scaleCanvas.

Definition componentDidMount : M world unit :=
  has <- gets _canvas ;;
  when has (
    p <- gets this_props ;;
    when (negb (truthy_num (width p)) || negb (truthy_num (height p)))
         (canvas_set (SetStyleWidth "100%") (with_style_width "100%")) ;;
    scaleCanvas ;;
    when (negb (truthy_num (width p)) || negb (truthy_num (height p)))
         (addEventListener CallResizeHandler) ;;
    modify (fun w =>
      let '(e, c) := Engine.create (options p) (element w) in
      log NewSigPad (set_element c (set_signaturePad (Some e) w)))).

Definition componentWillUnmount : M world unit :=
  p <- gets this_props ;;
  when (negb (truthy_num (width p)) || negb (truthy_num (height p)))
       (removeEventListener CallResizeHandler) ;;
  off.

Definition invalid (name : string) : error :=
  Error ("Invalid argument passed to " ++ name ++ "()").

(** [set onBegin(fn)] *)
Definition set_onBegin (fn : value) : M world unit :=
  if negb (is_function fn) then throw (invalid "onBegin")
  else pad_assign "onBegin" fn Engine.with_onBegin.

(** [set onEnd(fn)] *)
Definition set_onEnd (fn : value) : M world unit :=
  if negb (is_function fn) then throw (invalid "onEnd")
  else pad_assign "onEnd" fn Engine.with_onEnd.

(** The identity of [this.handleResize.bind(this)]. *)
Definition handleResize_bound : nat := 0.

(** [this._callResizeHandler], as the constructor builds it. *)
Definition _callResizeHandler (p : props) : Limiter.limiter :=
  Limiter.debounce (debounceInterval p) (VFun handleResize_bound) VUndefined.

(** The component after its constructor ([this.state] is
    [{ canvasWidth: 0, canvasHeight: 0 }]), before React has called the
    [ref] callback of [render]. *)
Definition construct (p : props) (el : canvas) (dpr : option Q) (ls : list handler)
  : world :=
  {| this_props := p; element := el; _canvas := false; _signaturePad := None;
     canvasWidth := 0; canvasHeight := 0; devicePixelRatio := dpr;
     listeners := ls; trace := [] |}.

(** The [ref] callback of [render]: [_this2._canvas = _ref]. *)
Definition ref (present : bool) : M world unit := modify (set_canvas_ref present).

(** *** What the statements about the component speak of *)

(** The assignments to the canvas's [width] in a trace: one for each
    rescale that changed the dimensions. *)
Definition is_resize (e : effect) : bool :=
  match e with SetWidth _ => true | _ => false end.
Definition resizes (tr : list effect) : nat := List.length (filter is_resize tr).

(** An operation that raises no error. *)
Definition raises_nothing {A} (op : M world A) (w : world) : Prop :=
  threw (snd (op w)) = false.

(** What C7 says of an operation: invoked while the canvas or the engine
    does not exist, it raises nothing. *)
Definition guarded {A} (op : M world A) : Prop :=
  forall w, _canvas w = false \/ _signaturePad w = None -> raises_nothing op w.

(** Fixed dimensions, as the code tests them: [width] and [height] are both
    given and not zero. *)
Definition fixed_size (p : props) : bool :=
  truthy_num (width p) && truthy_num (height p).

(** A canvas of 300 by 150 CSS pixels and a component with default props,
    for the examples. *)
Definition canvas0 : canvas :=
  {| offsetWidth := 300; offsetHeight := 150; el_width := 300; el_height := 150;
     style_width := ""; bitmap := "iVBOR"; ctx_scale := (1, 1) |}.
Definition props0 (redraw : bool) : props :=
  {| width := None; height := None; options := [];
     redrawOnResize := redraw; debounceInterval := 150 |}.
Definition engine0 : engine :=
  {| pad_empty := false; pad_data := VUndefined; pad_listening := true;
     pad_onBegin := VUndefined; pad_onEnd := VUndefined |}.
(** An unmounted component, and a mounted one with an engine that holds a
    drawing. *)
Definition fresh0 : world := construct (props0 false) canvas0 (Some 2) [].
Definition mounted0 (redraw : bool) : world :=
  {| this_props := props0 redraw; element := canvas0; _canvas := true;
     _signaturePad := Some engine0; canvasWidth := 0; canvasHeight := 0;
     devicePixelRatio := Some 2; listeners := []; trace := [] |}.

End Pad.

(* ================================================================= *)
(** ** Plain objects, [_extends] and [render] *)

Module Obj.
Import Js.

(** An object's own enumerable properties, in insertion order. *)
Definition obj : Type := list (string * value).

(** [o[k]] on an own property; [None] when there is none. *)
Fixpoint get (k : string) (o : obj) : option value :=
  match o with
  | [] => None
  | (k', v) :: r => if String.eqb k k' then Some v else get k r
  end.

(** [o[k] = v]: the property keeps its place, a new one goes last. *)
Fixpoint set (k : string) (v : value) (o : obj) : obj :=
  match o with
  | [] => [(k, v)]
  | (k', v') :: r => if String.eqb k k' then (k, v) :: r else (k', v') :: set k v r
  end.

(** The inner loop of [_extends]:
    [for (var key in source) if (hasOwnProperty.call(source, key)) target[key] = source[key];]
    a [source] that is [undefined] or [null] ([None]) has nothing to
    enumerate. *)
Definition copy_own (target : obj) (source : option obj) : obj :=
  match source with
  | Some src => fold_left (fun t kv => set (fst kv) (snd kv) t) src target
  | None => target
  end.

(** [_extends(target, source1, ..., sourceN)] *)
Definition _extends (target : obj) (sources : list (option obj)) : obj :=
  fold_left copy_own sources target.

(** An object has each key once. *)
Definition wf (o : obj) : Prop := NoDup (map fst o).

(** The identity of the arrow function [render] passes as [ref]. *)
Definition ref_callback : nat := 1.

(** [render()]: the type and the props given to [React.createElement];
    [canvasProps] is [this.props.canvasProps]. *)
Definition render (canvasProps : option obj) : string * obj :=
  ("canvas"%string, _extends [("ref"%string, VFun ref_callback)] [canvasProps]).

End Obj.

(* ================================================================= *)
(** ** The pass-through properties of the component *)

Module Settings.
Import Js.

(** The seven properties the component hands through to the engine with a
    getter and a setter each. *)
Inductive setting : Type :=
| DotSize | MinWidth | MaxWidth | Throttle
| BackgroundColor | PenColor | VelocityFilterWeight.

Definition key (p : setting) : string :=
  match p with
  | DotSize => "dotSize"
  | MinWidth => "minWidth"
  | MaxWidth => "maxWidth"
  | Throttle => "throttle"
  | BackgroundColor => "backgroundColor"
  | PenColor => "penColor"
  | VelocityFilterWeight => "velocityFilterWeight"
  end.

(** Modelled from the spec: the engine keeps these as plain mutable
    properties (section 6 of the specification); [own] holds them while an
    engine is attached to the component [core]. *)
Record world : Type := {
  core : Pad.world;
  own : Obj.obj
}.

(** [set p(v) { this._signaturePad.p = v; }] *)
Definition set (p : setting) (v : value) : M world unit :=
  fun w =>
    match Pad._signaturePad (core w) with
    | Some _ =>
        ({| core := Pad.log (Pad.PadSet (key p) v) (core w);
            own := Obj.set (key p) v (own w) |}, Normal tt)
    | None => (w, Throw TypeError)
    end.

(** [get p() { return this._signaturePad.p; }] *)
Definition get (p : setting) : M world value :=
  fun w =>
    match Pad._signaturePad (core w) with
    | Some _ =>
        (w, Normal (match Obj.get (key p) (own w) with
                    | Some v => v
                    | None => VUndefined
                    end))
    | None => (w, Throw TypeError)
    end.

End Settings.

(* ================================================================= *)
(** ** What the further statements speak of *)

Module LimiterSpec.
Import Js Limiter.
Local Open Scope Z_scope.

(** Executions that follow one another are at least [d] apart. *)
Fixpoint apart (d : Z) (l : list call) : Prop :=
  match l with
  | [] => True
  | x :: r =>
      match r with
      | [] => True
      | y :: _ => call_time x + d <= call_time y
      end /\ apart d r
  end.

(** What a throttling limiter keeps: executions are [delay] apart, none is
    later than [lastExec], and a pending timeout is due [delay] after
    [lastExec] or later. *)
Definition paced (c : limiter) (s : state) : Prop :=
  apart (delay c) (calls s) /\
  Forall (fun x => call_time x <= lastExec s) (calls s) /\
  Forall (fun e => lastExec s + delay c <= due (snd e)) (timers s).

(** Every execution so far ran the callback with a [this] and [arguments]
    that [P] holds of, and so will every pending [exec]. *)
Definition from_calls (c : limiter) (P : value -> list value -> Prop) (s : state) : Prop :=
  Forall (fun x => callback c = VFun (call_fn x) /\ P (call_this x) (call_args x))
         (calls s) /\
  Forall (fun e => match act (snd e) with
                   | ActExec self args => P self args
                   | ActClear => True
                   end) (timers s).

(** No pending timeout runs the callback. *)
Definition only_clear (s : state) : Prop :=
  Forall (fun e => act (snd e) = ActClear) (timers s).

End LimiterSpec.

Module PadSpec.
Import Js Pad.
Local Open Scope Q_scope.

(** The scale factor [scaleCanvas] works with: the device pixel ratio, taken
    as 1 when it is missing or zero, and never below 1. *)
Definition ratio_of (w : world) : Q :=
  match devicePixelRatio w with
  | Some q => if Qle_bool 1 q then q else 1
  | None => 1
  end.

(** The size in CSS pixels [scaleCanvas] starts from: the prop when it is
    given and not zero, the canvas's layout size otherwise. *)
Definition css_width (w : world) : Q :=
  match width (this_props w) with
  | Some a => if Qeq_bool a 0 then offsetWidth (element w) else a
  | None => offsetWidth (element w)
  end.
Definition css_height (w : world) : Q :=
  match height (this_props w) with
  | Some a => if Qeq_bool a 0 then offsetHeight (element w) else a
  | None => offsetHeight (element w)
  end.

End PadSpec.

(* ================================================================= *)
(** ** Properties of the rate limiter *)

Module LimiterFacts.
Import Js Limiter.
Local Open Scope Z_scope.

Ltac unfold_js :=
  unfold wrapper, leading_exec, clear_existing, exec_or_schedule, exec, clear,
    setTimeout, clearTimeout, when, bind, gets, modify, throw, ret in *.

Lemma at_most_one_length s : at_most_one s -> (List.length (timers s) <= 1)%nat.
Proof.
  unfold at_most_one. destruct (timers s) as [|[id tm] [|e r]]; simpl; intros; lia.
Qed.

Lemma exec_timers c self args s :
  timers (fst (exec c self args s)) = timers s /\
  timeoutID (fst (exec c self args s)) = timeoutID s /\
  now (fst (exec c self args s)) = now s /\
  fresh (fst (exec c self args s)) = fresh s.
Proof. unfold_js. destruct (callback c); simpl; auto. Qed.

Lemma exec_inv c self args s :
  at_most_one s -> at_most_one (fst (exec c self args s)).
Proof.
  unfold at_most_one. destruct (exec_timers c self args s) as (-> & -> & _). auto.
Qed.

Lemma leading_exec_inv c self args s :
  at_most_one s ->
  at_most_one (fst (leading_exec c self args s)) /\
  timers (fst (leading_exec c self args s)) = timers s.
Proof.
  intros H. unfold leading_exec, bind, gets, when.
  destruct (truthy (debounceMode c) && _).
  - split; [now apply exec_inv | apply exec_timers].
  - simpl. auto.
Qed.

Lemma clear_existing_spec s :
  at_most_one s -> clear_existing s = (set_timers [] s, Normal tt).
Proof.
  unfold at_most_one. destruct s as [n tms fr tid le cs]. unfold_js. simpl.
  destruct tms as [|[id tm] [|e r]]; intros H; try contradiction.
  - destruct tid; reflexivity.
  - subst tid. simpl. rewrite Pos.eqb_refl. reflexivity.
Qed.

Lemma exec_or_schedule_inv c elapsed self args s :
  timers s = [] -> at_most_one (fst (exec_or_schedule c elapsed self args s)).
Proof.
  intros H. unfold exec_or_schedule.
  destruct (strict_eq (debounceMode c) VUndefined && _).
  - apply exec_inv. unfold at_most_one. now rewrite H.
  - destruct (negb _).
    + unfold_js. unfold at_most_one. simpl. rewrite H. reflexivity.
    + unfold_js. unfold at_most_one. simpl. now rewrite H.
Qed.

Lemma wrapper_inv c self args s :
  at_most_one s -> at_most_one (fst (wrapper c self args s)).
Proof.
  intros H. unfold wrapper. unfold bind at 1 2 3. unfold gets at 1 2. 
  destruct (leading_exec_inv c self args s H) as [H1 _].
  destruct (leading_exec c self args s) as [s1 [[]|e]]; simpl in *; auto.
  unfold bind. rewrite (clear_existing_spec _ H1).
  apply exec_or_schedule_inv. reflexivity.
Qed.

Lemma filter_length_le {A} (p : A -> bool) (l : list A) :
  (List.length (filter p l) <= List.length l)%nat.
Proof. induction l as [|a l IH]; simpl; [lia|]. destruct (p a); simpl; lia. Qed.

Lemma fire_inv c id tm s :
  at_most_one s -> In (id, tm) (timers s) ->
  timers (fire c id tm s) = [] /\ at_most_one (fire c id tm s).
Proof.
  unfold at_most_one. intros H Hin.
  assert (Hf : filter (fun e => negb (Pos.eqb (fst e) id)) (timers s) = []).
  { destruct (timers s) as [|[id' tm'] [|e r]]; try contradiction.
    destruct Hin as [Heq|[]]. inversion Heq; subst. simpl.
    now rewrite Pos.eqb_refl. }
  unfold fire. destruct (act tm).
  - destruct (exec_timers c self args
                (set_now (Z.max (now s) (due tm))
                   (set_timers (filter (fun e => negb (Pos.eqb (fst e) id)) (timers s)) s)))
      as (-> & _). simpl. rewrite Hf. auto.
  - simpl. rewrite Hf. auto.
Qed.

Lemma earliest_in l e : earliest l = Some e -> In e l.
Proof.
  revert e. induction l as [|a l IH]; simpl; intros e H; [discriminate|].
  destruct (earliest l) as [e'|].
  - destruct (due (snd e') <? due (snd a)); inversion H; subst; auto.
  - inversion H; auto.
Qed.

Lemma earliest_min l e :
  earliest l = Some e -> forall e', In e' l -> due (snd e) <= due (snd e').
Proof.
  revert e. induction l as [|a l IH]; simpl; intros e H e' Hin; [contradiction|].
  destruct (earliest l) as [m|] eqn:Hm.
  - destruct (due (snd m) <? due (snd a)) eqn:Hlt; inversion H; subst.
    + destruct Hin as [<-|Hin]; [apply Z.ltb_lt in Hlt; lia | now apply IH].
    + apply Z.ltb_ge in Hlt. destruct Hin as [<-|Hin]; [lia|].
      specialize (IH m eq_refl e' Hin). lia.
  - inversion H; subst. destruct l; [|simpl in Hm; destruct (earliest l); try destruct (_ <? _); discriminate].
    destruct Hin as [<-|[]]. lia.
Qed.

Lemma fire_due_inv c fuel t s :
  at_most_one s -> at_most_one (fire_due c fuel t s).
Proof.
  revert s. induction fuel as [|k IH]; simpl; intros s H; auto.
  destruct (earliest (timers s)) as [[id tm]|] eqn:He; auto.
  destruct (due tm <=? t); auto.
  apply IH. apply fire_inv; auto. eapply earliest_in; eauto.
Qed.

Lemma advance_inv c t s : at_most_one s -> at_most_one (advance c t s).
Proof.
  intros H. unfold advance.
  pose proof (fire_due_inv c (List.length (timers s)) t s H) as H'.
  unfold at_most_one in *. simpl. exact H'.
Qed.

Lemma step_inv c s e : at_most_one s -> at_most_one (step c s e).
Proof. destruct e; simpl; [apply wrapper_inv | apply advance_inv]. Qed.

Lemma run_inv c evs s : at_most_one s -> at_most_one (run c evs s).
Proof.
  unfold run. revert s. induction evs as [|e evs IH]; simpl; intros s H; auto.
  apply IH, step_inv, H.
Qed.

(** *** Time passing *)

Lemma fire_timers c id tm s :
  timers (fire c id tm s) = filter (fun e => negb (Pos.eqb (fst e) id)) (timers s).
Proof.
  unfold fire. destruct (act tm).
  - destruct (exec_timers c self args
                (set_now (Z.max (now s) (due tm))
                   (set_timers (filter (fun e => negb (Pos.eqb (fst e) id)) (timers s)) s)))
      as (-> & _). reflexivity.
  - reflexivity.
Qed.

Lemma filter_length_lt {A} (p : A -> bool) (l : list A) a :
  In a l -> p a = false -> (List.length (filter p l) < List.length l)%nat.
Proof.
  induction l as [|b l IH]; simpl; intros Hin Hp; [contradiction|].
  destruct Hin as [->|Hin].
  - rewrite Hp. pose proof (filter_length_le p l). lia.
  - specialize (IH Hin Hp). destruct (p b); simpl; lia.
Qed.

Lemma fire_due_complete c fuel t s e :
  (List.length (timers s) <= fuel)%nat ->
  In e (timers (fire_due c fuel t s)) -> t < due (snd e).
Proof.
  revert s. induction fuel as [|k IH]; intros s Hlen Hin; simpl in Hin.
  - destruct (timers s); [contradiction | simpl in Hlen; lia].
  - destruct (earliest (timers s)) as [[id tm]|] eqn:He.
    + destruct (due tm <=? t) eqn:Hd.
      * apply IH in Hin; auto. rewrite fire_timers.
        pose proof (earliest_in _ _ He) as Hm.
        pose proof (filter_length_lt (fun e => negb (Pos.eqb (fst e) id)) _ _ Hm) as Hlt.
        simpl in Hlt. rewrite Pos.eqb_refl in Hlt. specialize (Hlt eq_refl). lia.
      * apply Z.leb_gt in Hd.
        pose proof (earliest_min _ _ He e Hin). simpl in *. lia.
    + destruct (timers s) as [|a l]; [contradiction|].
      simpl in He. destruct (earliest l); [destruct (_ <? _)|]; discriminate.
Qed.

(** The fuel of [advance] is enough: no timeout that was due is left. *)
Lemma advance_complete c t s e :
  In e (timers (advance c t s)) -> t < due (snd e).
Proof.
  unfold advance. simpl. apply fire_due_complete. lia.
Qed.

Lemma advance_idle c t s :
  (forall e, In e (timers s) -> t < due (snd e)) ->
  advance c t s = set_now (Z.max (now s) t) s.
Proof.
  intros H. unfold advance.
  destruct (List.length (timers s)); simpl; [reflexivity|].
  destruct (earliest (timers s)) as [[id tm]|] eqn:He; [|reflexivity].
  pose proof (earliest_in _ _ He) as Hin.
  apply H in Hin. simpl in Hin.
  destruct (due tm <=? t) eqn:Hd; [apply Z.leb_le in Hd; lia | reflexivity].
Qed.

Lemma advance_fires_exec c f id t self args T s :
  callback c = VFun f ->
  timers s = [(id, {| due := t; act := ActExec self args |})] ->
  now s <= t <= T ->
  calls (advance c T s) = calls s ++ [executed f t self args] /\
  timers (advance c T s) = [] /\
  now (advance c T s) = T.
Proof.
  intros Hc Ht Hle. unfold advance. rewrite Ht. simpl. rewrite Ht. simpl.
  assert (Hd : (t <=? T) = true) by (apply Z.leb_le; lia). rewrite Hd.
  unfold fire. simpl. unfold_js. rewrite Hc, Ht. simpl.
  rewrite Pos.eqb_refl. simpl.
  replace (Z.max (now s) t) with t by lia.
  repeat split. lia.
Qed.

(** *** One call *)

Lemma wrapper_not_leading c self args s :
  truthy (debounceMode c) = false -> at_most_one s ->
  wrapper c self args s =
  exec_or_schedule c (now s - lastExec s) self args (set_timers [] s).
Proof.
  intros Hm H. unfold wrapper, leading_exec, when, bind, gets, ret.
  rewrite Hm. simpl. rewrite (clear_existing_spec _ H). reflexivity.
Qed.

(** A call that neither is the leading one nor finds [delay] exceeded sets
    one timeout that runs [exec]. *)
Lemma wrapper_schedules c self args s :
  truthy (debounceMode c) = false ->
  strict_eq (debounceMode c) VUndefined && (delay c <? now s - lastExec s) = false ->
  strict_eq (noTrailing c) (VBool true) = false ->
  at_most_one s ->
  wrapper c self args s =
  (set_timeoutID (Some (fresh s))
     (set_fresh (Pos.succ (fresh s))
        (set_timers
           [(fresh s,
             {| due := now s + Z.max 0 (if strict_eq (debounceMode c) VUndefined
                                        then delay c - (now s - lastExec s)
                                        else delay c);
                act := ActExec self args |})] s)),
   Normal tt).
Proof.
  intros Hm Hc Hn H. rewrite wrapper_not_leading by assumption.
  unfold exec_or_schedule. simpl. rewrite Hc, Hn, Hm. reflexivity.
Qed.

Lemma deferred_intro c f t s self args s' :
  callback c = VFun f ->
  wrapper c self args s = (s', Normal tt) ->
  calls s' = calls s ->
  timers s' = [(fresh s, {| due := t; act := ActExec self args |})] ->
  timeoutID s' = Some (fresh s) ->
  now s' <= t ->
  deferred_to c f t s self args.
Proof.
  intros Hc Hw Hcalls Ht Hid Hnow. unfold deferred_to. rewrite Hw. cbn [fst snd].
  repeat split; auto.
  intros T HT.
  destruct (advance_fires_exec c f (fresh s) t self args T s' Hc Ht) as (-> & _); [lia|].
  now rewrite Hcalls.
Qed.

Lemma last_cons_default {A} (a d : A) (r : list A) : last (a :: r) d = last r a.
Proof.
  revert a. induction r as [|b r IH]; intros a; [reflexivity|].
  change (last (a :: b :: r) d) with (last (b :: r) d).
  rewrite (IH b). simpl. destruct r; [reflexivity|]. symmetry.
  change (last (a0 :: r) a = last (a0 :: r) b).
  clear IH. revert a0. induction r as [|x r IH]; intros a0; [reflexivity|].
  change (last (x :: r) a = last (x :: r) b). apply IH.
Qed.

(** A burst in trailing debounce mode, from a store where the previous
    call's timeout is pending. *)
Lemma burst_trailing c f d T :
  callback c = VFun f -> debounceMode c = VBool false ->
  strict_eq (noTrailing c) (VBool true) = false -> delay c = d -> 0 <= d ->
  forall r s id t self args,
    timers s = [(id, {| due := t + d; act := ActExec self args |})] ->
    timeoutID s = Some id -> now s = t -> spaced d t r ->
    fst (fst (last r (t, self, args))) + d <= T ->
    calls (run c (burst r ++ [Tick T]) s) =
    calls s ++ [executed f (fst (fst (last r (t, self, args))) + d)
                  (snd (fst (last r (t, self, args))))
                  (snd (last r (t, self, args)))].
Proof.
  intros Hc Hm Hn Hd Hpos. induction r as [|[[t' self'] args'] r IH];
    intros s id t self args Ht Hid Hnow Hsp HT.
  - cbn [last fst snd] in *.
    change (run c (burst [] ++ [Tick T]) s) with (advance c T s).
    destruct (advance_fires_exec c f id (t + d) self args T s Hc Ht) as (-> & _); [lia|].
    reflexivity.
  - destruct Hsp as [Hlt Hsp]. rewrite last_cons_default in *.
    change (run c (burst ((t', self', args') :: r) ++ [Tick T]) s)
      with (run c (burst r ++ [Tick T])
              (fst (wrapper c self' args' (advance c t' s)))).
    rewrite advance_idle.
    2:{ intros e He. rewrite Ht in He. destruct He as [<-|[]]. simpl. lia. }
    assert (Hinv : at_most_one (set_now (Z.max (now s) t') s)).
    { unfold at_most_one. simpl. rewrite Ht. exact Hid. }
    rewrite wrapper_schedules; auto; try (rewrite Hm; reflexivity).
    rewrite Hm, Hd. simpl strict_eq. cbv iota.
    erewrite IH; simpl; eauto.
    + replace (Z.max (now s) t' + Z.max 0 d) with (t' + d) by lia. reflexivity.
    + lia.
Qed.

(** *** The statements *)

(** C1, as the code has it.  In throttle mode ([debounceMode] undefined),
    in every state the limiter can reach: a call made more than [delay]
    after the last execution runs the callback at once; a call made within
    [delay] of it is deferred, unless [noTrailing] is [true], to the single
    timeout due at [lastExec + delay] (set with [delay - elapsed]) that
    carries this call's arguments; with [noTrailing === true] such a call
    runs nothing and sets no timeout. *)
Theorem throttle_mode_call c f t0 evs self args :
  debounceMode c = VUndefined -> callback c = VFun f ->
  let s := run c evs (init t0) in
  if delay c <? now s - lastExec s then ran_now c f s self args
  else if strict_eq (noTrailing c) (VBool true) then dropped c s self args
  else deferred_to c f (lastExec s + delay c) s self args.
Proof.
  intros Hm Hc s.
  assert (Hinv : at_most_one s) by (apply run_inv; exact I).
  assert (Hw := wrapper_not_leading c self args s).
  rewrite Hm in Hw. specialize (Hw eq_refl Hinv).
  destruct (delay c <? now s - lastExec s) eqn:Hlt.
  - unfold ran_now. rewrite Hw. unfold exec_or_schedule.
    rewrite Hm, Hlt. unfold_js. rewrite Hc. simpl. auto.
  - destruct (strict_eq (noTrailing c) (VBool true)) eqn:Hn.
    + unfold dropped. rewrite Hw. unfold exec_or_schedule.
      rewrite Hm, Hlt, Hn. simpl. auto.
    + assert (Hs := wrapper_schedules c self args s).
      rewrite Hm, Hlt in Hs. specialize (Hs eq_refl eq_refl Hn Hinv).
      apply Z.ltb_ge in Hlt.
      apply (deferred_intro c f _ s self args _ Hc Hs); simpl; try reflexivity; [|lia].
      f_equal. f_equal. f_equal. lia.
Qed.

Lemma throttle_mode_call_witness :
  let c := throttle 100 (VBool false) (VFun 1) VUndefined in
  let s := run c [Tick 1000; Call (VObj 0) [VStr "a"]; Tick 1050] (init 0) in
  deferred_to c 1 1100 s (VObj 0) [VStr "b"].
Proof.
  exact (throttle_mode_call (throttle 100 (VBool false) (VFun 1) VUndefined) 1 0
           [Tick 1000; Call (VObj 0) [VStr "a"]; Tick 1050] (VObj 0) [VStr "b"]
           eq_refl eq_refl).
Defined.

(** C1 as it is worded fails: with [noTrailing === true] a call made within
    [delay] of the last execution sets no timeout at all. *)
Lemma throttle_noTrailing_sets_no_timer :
  let c := throttle 100 (VBool true) (VFun 1) VUndefined in
  let s := run c [Tick 1000; Call (VObj 0) [VStr "a"]; Tick 1050] (init 0) in
  debounceMode c = VUndefined /\
  now s - lastExec s = 50 /\
  timers (fst (wrapper c (VObj 0) [VStr "b"] s)) = [] /\
  ~ throttle_call c 1 s (VObj 0) [VStr "b"].
Proof.
  cbv zeta. repeat split.
  intros H. unfold throttle_call in H.
  change (deferred_to (throttle 100 (VBool true) (VFun 1) VUndefined) 1 1100
            (run (throttle 100 (VBool true) (VFun 1) VUndefined)
               [Tick 1000; Call (VObj 0) [VStr "a"]; Tick 1050] (init 0))
            (VObj 0) [VStr "b"]) in H.
  destruct H as (_ & _ & H & _). discriminate H.
Qed.

(** C2.  [debounce(delay, callback)] gives trailing debounce mode
    ([debounceMode === false]).  In that mode every call, in every state
    the limiter can reach, runs nothing itself and leaves exactly one
    timeout, due [delay] after the call and carrying its arguments (the one
    that was pending is gone); and a burst of calls, each less than [delay]
    after the one before, followed by silence, runs the callback exactly
    once: with the last call's [this] and arguments, [delay] after the last
    call. *)
Theorem trailing_debounce_burst d f :
  0 <= d ->
  let c := debounce d (VFun f) VUndefined in
  debounceMode c = VBool false /\
  (forall t0 evs self args,
      deferred_to c f (now (run c evs (init t0)) + d) (run c evs (init t0)) self args) /\
  (forall t0 t1 self1 args1 r T,
      t0 <= t1 -> spaced d t1 r ->
      fst (fst (last r (t1, self1, args1))) + d <= T ->
      calls (run c (burst ((t1, self1, args1) :: r) ++ [Tick T]) (init t0)) =
      [executed f (fst (fst (last r (t1, self1, args1))) + d)
         (snd (fst (last r (t1, self1, args1))))
         (snd (last r (t1, self1, args1)))]).
Proof.
  intros Hd c.
  assert (Hc : callback c = VFun f) by reflexivity.
  assert (Hm : debounceMode c = VBool false) by reflexivity.
  assert (Hn : strict_eq (noTrailing c) (VBool true) = false) by reflexivity.
  assert (Hdel : delay c = d) by reflexivity.
  split; [exact Hm|]. split.
  - intros t0 evs self args.
    assert (Hinv : at_most_one (run c evs (init t0))) by (apply run_inv; exact I).
    assert (Hs := wrapper_schedules c self args _ eq_refl eq_refl Hn Hinv).
    apply (deferred_intro c f _ _ self args _ Hc Hs); simpl; try reflexivity; [|lia].
    f_equal. f_equal. f_equal. lia.
  - intros t0 t1 self1 args1 r T Ht Hsp HT.
    change (run c (burst ((t1, self1, args1) :: r) ++ [Tick T]) (init t0))
      with (run c (burst r ++ [Tick T])
              (fst (wrapper c self1 args1 (advance c t1 (init t0))))).
    rewrite advance_idle by (intros e []).
    rewrite wrapper_schedules; auto; try exact I.
    erewrite (burst_trailing c f d T Hc Hm Hn Hdel Hd r _ _ t1 self1 args1);
      simpl; eauto; try lia.
    f_equal. f_equal. f_equal. lia.
Qed.

Lemma trailing_debounce_burst_witness :
  let c := debounce 150 (VFun 0) VUndefined in
  calls (run c (burst [(1000, VObj 0, [VStr "a"]); (1100, VObj 0, [VStr "b"]);
                       (1200, VObj 0, [VStr "c"])] ++ [Tick 2000]) (init 900)) =
  [executed 0 1350 (VObj 0) [VStr "c"]].
Proof.
  refine (proj2 (proj2 (trailing_debounce_burst 150 0 _)) 900 1000 (VObj 0) [VStr "a"]
            [(1100, VObj 0, [VStr "b"]); (1200, VObj 0, [VStr "c"])] 2000 _ _ _);
    simpl; lia.
Defined.

(** C3.  Whatever the mode and the history of calls and time passing, the
    limiter has at most one timeout pending; and in every call, once the
    first two statements of [wrapper] are through (the leading [exec] and
    the [clearTimeout]) no timeout is pending, so the one the call may then
    set is the only one. *)
Theorem one_pending_timer c t0 evs self args :
  let s := run c evs (init t0) in
  (List.length (timers s) <= 1)%nat /\
  timers (fst (bind (leading_exec c self args) (fun _ => clear_existing) s)) = [] /\
  (List.length (timers (fst (wrapper c self args s))) <= 1)%nat.
Proof.
  intros s.
  assert (Hinv : at_most_one s) by (apply run_inv; exact I).
  split; [now apply at_most_one_length|]. split.
  - unfold bind.
    destruct (leading_exec_inv c self args s Hinv) as [H1 H2].
    destruct (leading_exec c self args s) as [s1 [[]|e]] eqn:Hl; simpl in *.
    + rewrite (clear_existing_spec _ H1). reflexivity.
    + rewrite H2. revert Hl. unfold leading_exec, bind, gets, when, ret.
      destruct (timeoutID s) eqn:Hid.
      * rewrite andb_false_r. discriminate.
      * intros _. unfold at_most_one in Hinv. rewrite Hid in Hinv.
        destruct (timers s) as [|[id tm] [|x r]]; [reflexivity | discriminate | contradiction].
  - apply at_most_one_length, wrapper_inv, Hinv.
Qed.

(** C4.  A value that is not a boolean in the [noTrailing] position shifts
    the arguments: [debounceMode] is what stood in the [callback] position,
    [callback] what stood in the [noTrailing] position, and [noTrailing] is
    undefined.  The limiter so obtained behaves as the one of the longer
    form with [noTrailing = false], for every mode; and so do the two forms
    of [debounce]. *)
Theorem throttle_shifts_arguments d v x y :
  is_boolean v = false ->
  throttle d v x y =
    {| delay := d; noTrailing := VUndefined; callback := v; debounceMode := x |} /\
  same_behaviour (throttle d v x y) (throttle d (VBool false) v x) /\
  (forall f,
      debounce d (VFun f) VUndefined =
        {| delay := d; noTrailing := VUndefined;
           callback := VFun f; debounceMode := VBool false |} /\
      same_behaviour (debounce d (VFun f) VUndefined) (debounce d (VBool false) (VFun f)) /\
      debounceMode (debounce d (VBool true) (VFun f)) = VBool true).
Proof.
  intros Hv.
  assert (Hshift : throttle d v x y =
    {| delay := d; noTrailing := VUndefined; callback := v; debounceMode := x |}).
  { unfold throttle. rewrite Hv. reflexivity. }
  split; [exact Hshift|]. split.
  - rewrite Hshift. intros s. split; intros; reflexivity.
  - intros f. split; [reflexivity|]. split; [|reflexivity].
    intros s. split; intros; reflexivity.
Qed.

Lemma throttle_shifts_arguments_witness :
  throttle 100 (VFun 7) (VBool true) VUndefined =
    {| delay := 100; noTrailing := VUndefined;
       callback := VFun 7; debounceMode := VBool true |}.
Proof.
  exact (proj1 (throttle_shifts_arguments 100 (VFun 7) (VBool true) VUndefined eq_refl)).
Defined.

End LimiterFacts.




(* ================================================================= *)
(** ** Properties of the component *)

Module PadFacts.
Import Js Pad.
Local Open Scope Q_scope.

Local Arguments Qmult : simpl never.
Local Arguments Qmax : simpl never.
Local Arguments Qeq_bool : simpl never.
Local Arguments scaleCanvas : simpl never.
Local Arguments target : simpl never.

Ltac unfold_pad :=
  unfold scaleCanvas, target, unchanged, componentDidMount, componentWillUnmount,
    set_onBegin, set_onEnd, isEmpty, Pad.clear, fromDataURL, toDataURL, fromData,
    toData, off, on, pad_call, pad_assign, canvas_get, canvas_set, setState,
    addEventListener, removeEventListener, or_else, when, bind, gets, modify,
    throw, ret in *.

Ltac split_ifs :=
  repeat match goal with
         | |- context [if ?b then _ else _] => destruct b eqn:?; simpl
         | |- context [match ?o with Some _ => _ | None => _ end] =>
             destruct o eqn:?; simpl
         end.

Lemma target_keeps w : fst (target w) = w.
Proof. unfold_pad. split_ifs; reflexivity. Qed.

(** With a canvas, the target dimensions are computed without error. *)
Lemma target_total w :
  _canvas w = true -> exists r wd ht, target w = (w, Normal (r, wd, ht)).
Proof.
  intros Hc. destruct w as [p el cv pad cw ch dpr ls tr]. simpl in Hc. subst cv.
  unfold_pad. simpl. split_ifs; eauto.
Qed.

(** The target depends on the props, the pixel ratio and the canvas's
    layout size only. *)
Lemma target_ext w1 w2 :
  this_props w1 = this_props w2 -> devicePixelRatio w1 = devicePixelRatio w2 ->
  _canvas w1 = _canvas w2 ->
  offsetWidth (element w1) = offsetWidth (element w2) ->
  offsetHeight (element w1) = offsetHeight (element w2) ->
  snd (target w1) = snd (target w2).
Proof.
  intros Hp Hd Hc Hw Hh.
  destruct w1 as [p1 el1 cv1 pad1 cw1 ch1 dpr1 ls1 tr1].
  destruct w2 as [p2 el2 cv2 pad2 cw2 ch2 dpr2 ls2 tr2].
  simpl in *. subst. unfold_pad. simpl.
  split_ifs; rewrite ?Hw, ?Hh; reflexivity.
Qed.

Lemma target_eq w : target w = (w, snd (target w)).
Proof. rewrite <- (target_keeps w) at 2. now destruct (target w). Qed.

(** [scaleCanvas] when the target equals the tracked dimensions. *)
Lemma scaleCanvas_same w r wd ht :
  target w = (w, Normal (r, wd, ht)) -> unchanged wd ht w = true ->
  scaleCanvas w = (w, Normal tt).
Proof.
  intros Ht Hu. unfold scaleCanvas, bind. rewrite Ht. unfold gets. rewrite Hu.
  reflexivity.
Qed.

(** [scaleCanvas] when the dimensions change, statement by statement. *)
Lemma scaleCanvas_changes w r wd ht :
  _canvas w = true ->
  target w = (w, Normal (r, wd, ht)) -> unchanged wd ht w = false ->
  scaleCanvas w =
  (let resized :=
     {| offsetWidth := offsetWidth (element w); offsetHeight := offsetHeight (element w);
        el_width := wd; el_height := ht; style_width := style_width (element w);
        bitmap := blank; ctx_scale := (1 * r, 1 * r) |} in
   let resize := [SetWidth wd; SetHeight ht; SetState wd ht; CtxScale r r] in
   match _signaturePad w with
   | Some e =>
       if redrawOnResize (this_props w) then
         {| this_props := this_props w;
            element := with_bitmap (bitmap (element w)) resized;
            _canvas := true;
            _signaturePad := Some (Engine.with_empty false e);
            canvasWidth := wd; canvasHeight := ht;
            devicePixelRatio := devicePixelRatio w; listeners := listeners w;
            trace := trace w ++ [PadCall (MToDataURL VUndefined)] ++ resize ++
                     [PadCall (MFromDataURL (VStr (bitmap (element w))))] |}
       else
         {| this_props := this_props w;
            element := resized;
            _canvas := true;
            _signaturePad := Some (Engine.with_data VUndefined (Engine.with_empty true e));
            canvasWidth := wd; canvasHeight := ht;
            devicePixelRatio := devicePixelRatio w; listeners := listeners w;
            trace := trace w ++ resize ++ [PadCall MClear] |}
   | None =>
       {| this_props := this_props w;
          element := resized;
          _canvas := true;
          _signaturePad := None;
          canvasWidth := wd; canvasHeight := ht;
          devicePixelRatio := devicePixelRatio w; listeners := listeners w;
          trace := trace w ++ resize |}
   end, Normal tt).
Proof.
  intros Hc Ht Hu. unfold scaleCanvas. unfold bind at 1. rewrite Ht.
  unfold bind at 1. unfold gets at 1. rewrite Hu.
  destruct w as [p el cv pad cw ch dpr ls tr]. simpl in Hc. subst cv.
  clear Ht Hu.
  destruct pad as [e|]; destruct p as [pw ph po [|] pd];
    cbv - [Qmult app]; rewrite <- ?app_assoc; reflexivity.
Qed.

(** With a canvas, [scaleCanvas] raises nothing and leaves the props, the
    listeners and the canvas reference alone. *)
Lemma scaleCanvas_frame w :
  _canvas w = true ->
  snd (scaleCanvas w) = Normal tt /\
  listeners (fst (scaleCanvas w)) = listeners w /\
  this_props (fst (scaleCanvas w)) = this_props w /\
  _canvas (fst (scaleCanvas w)) = true.
Proof.
  intros Hc. destruct (target_total w Hc) as (r & wd & ht & Ht).
  destruct (unchanged wd ht w) eqn:Hu.
  - rewrite (scaleCanvas_same w r wd ht Ht Hu). simpl. auto.
  - rewrite (scaleCanvas_changes w r wd ht Hc Ht Hu).
    destruct (_signaturePad w); [destruct (redrawOnResize (this_props w))|];
      simpl; auto.
Qed.

Lemma not_fixed p :
  negb (truthy_num (width p)) || negb (truthy_num (height p)) = negb (fixed_size p).
Proof. unfold fixed_size. now rewrite negb_andb. Qed.

Lemma componentDidMount_listeners w :
  _canvas w = true ->
  snd (componentDidMount w) = Normal tt /\
  this_props (fst (componentDidMount w)) = this_props w /\
  listeners (fst (componentDidMount w)) =
    (if fixed_size (this_props w) then listeners w
     else if existsb (handler_eqb CallResizeHandler) (listeners w) then listeners w
          else listeners w ++ [CallResizeHandler]).
Proof.
  intros Hc.
  unfold componentDidMount, bind, gets, when, ret, modify, canvas_set, addEventListener.
  cbv beta iota. rewrite Hc, !not_fixed. cbv beta iota.
  destruct (fixed_size (this_props w)); cbn [negb]; cbv beta iota.
  - destruct (scaleCanvas_frame w Hc) as (H1 & H2 & H3 & H4).
    destruct (scaleCanvas w) as [w1 r1]. cbn [fst snd] in *. subst r1.
    cbn. auto.
  - rewrite Hc. cbv beta iota.
    set (w0 := log (SetStyleWidth "100%")
                 (set_element (with_style_width "100%" (element w)) w)).
    assert (Hc0 : _canvas w0 = true) by exact Hc.
    destruct (scaleCanvas_frame w0 Hc0) as (H1 & H2 & H3 & H4).
    destruct (scaleCanvas w0) as [w1 r1]. cbn [fst snd] in *. subst r1.
    cbn.
    change (listeners w0) with (listeners w) in H2. rewrite <- H2.
    split; [reflexivity|].
    destruct (existsb (handler_eqb CallResizeHandler) (listeners w1));
      (split; [exact H3 | reflexivity]).
Qed.

Lemma componentWillUnmount_listeners w :
  listeners (fst (componentWillUnmount w)) =
    (if fixed_size (this_props w) then listeners w
     else filter (fun x => negb (handler_eqb CallResizeHandler x)) (listeners w)).
Proof.
  unfold componentWillUnmount. unfold bind at 1. unfold gets at 1.
  rewrite not_fixed. destruct (fixed_size (this_props w)); simpl negb; unfold when.
  - unfold_pad. simpl. destruct (_signaturePad w); reflexivity.
  - unfold_pad. simpl. destruct (_signaturePad w); reflexivity.
Qed.

Lemma resizes_app a b : resizes (a ++ b) = (resizes a + resizes b)%nat.
Proof. unfold resizes. now rewrite filter_app, length_app. Qed.

(** *** The statements *)

(** C5.  A rescale that changes the dimensions (with a canvas): with
    [redrawOnResize] and an engine, [toDataURL] is called before the canvas
    is resized and [fromDataURL], with what it returned, after, and the
    engine's content is what it was; without [redrawOnResize] and with an
    engine, [clear] is called after the resize and the engine reports
    empty; without an engine no engine method is called; and in all three
    cases no error is raised. *)
Theorem scaleCanvas_preserves_or_clears w r wd ht :
  _canvas w = true ->
  target w = (w, Normal (r, wd, ht)) ->
  unchanged wd ht w = false ->
  snd (scaleCanvas w) = Normal tt /\
  match _signaturePad w with
  | Some e =>
      if redrawOnResize (this_props w) then
        trace (fst (scaleCanvas w)) =
          trace w ++ [PadCall (MToDataURL VUndefined)] ++
          [SetWidth wd; SetHeight ht; SetState wd ht; CtxScale r r] ++
          [PadCall (MFromDataURL (VStr (bitmap (element w))))] /\
        snd (toDataURL VUndefined (fst (scaleCanvas w))) = snd (toDataURL VUndefined w)
      else
        trace (fst (scaleCanvas w)) =
          trace w ++ [SetWidth wd; SetHeight ht; SetState wd ht; CtxScale r r] ++
          [PadCall MClear] /\
        snd (isEmpty (fst (scaleCanvas w))) = Normal true /\
        snd (toDataURL VUndefined (fst (scaleCanvas w))) = Normal blank
  | None =>
      trace (fst (scaleCanvas w)) =
        trace w ++ [SetWidth wd; SetHeight ht; SetState wd ht; CtxScale r r] /\
      _signaturePad (fst (scaleCanvas w)) = None
  end.
Proof.
  intros Hc Ht Hu. rewrite (scaleCanvas_changes w r wd ht Hc Ht Hu).
  split; [reflexivity|].
  destruct (_signaturePad w) as [e|] eqn:Hp.
  - destruct (redrawOnResize (this_props w)); simpl.
    + split; [reflexivity|]. unfold_pad. simpl. rewrite Hp. reflexivity.
    + repeat split.
  - simpl. auto.
Qed.

Lemma scaleCanvas_preserves_or_clears_witness :
  snd (toDataURL VUndefined (fst (scaleCanvas (mounted0 true)))) = Normal "iVBOR"%string /\
  snd (isEmpty (fst (scaleCanvas (mounted0 false)))) = Normal true.
Proof.
  split.
  - exact (proj2 (proj2 (scaleCanvas_preserves_or_clears (mounted0 true) 2 600 300
                           eq_refl eq_refl eq_refl))).
  - exact (proj1 (proj2 (proj2 (scaleCanvas_preserves_or_clears (mounted0 false) 2 600 300
                                  eq_refl eq_refl eq_refl)))).
Defined.

(** C6.  When the target dimensions equal the tracked ones, [scaleCanvas]
    returns with the whole store as it was: canvas, tracked state, engine
    and trace.  So after a rescale that changed the dimensions a second one
    with the same target is a no-op: the two together do what the first
    alone does, with exactly one assignment of the canvas's dimensions. *)
Theorem scaleCanvas_idempotent w r wd ht :
  target w = (w, Normal (r, wd, ht)) ->
  (unchanged wd ht w = true -> scaleCanvas w = (w, Normal tt)) /\
  (_canvas w = true -> unchanged wd ht w = false ->
   scaleCanvas (fst (scaleCanvas w)) = (fst (scaleCanvas w), Normal tt) /\
   bind scaleCanvas (fun _ => scaleCanvas) w = scaleCanvas w /\
   resizes (trace (fst (bind scaleCanvas (fun _ => scaleCanvas) w))) =
     S (resizes (trace w))).
Proof.
  intros Ht. split; [apply scaleCanvas_same with (r := r); exact Ht|].
  intros Hc Hu.
  assert (H2 : scaleCanvas (fst (scaleCanvas w)) = (fst (scaleCanvas w), Normal tt)).
  { apply scaleCanvas_same with (r := r) (wd := wd) (ht := ht).
    - rewrite target_eq. f_equal.
      replace (Normal (r, wd, ht)) with (snd (target w)) by now rewrite Ht.
      apply target_ext; rewrite (scaleCanvas_changes w r wd ht Hc Ht Hu);
        (destruct (_signaturePad w); [destruct (redrawOnResize (this_props w))|]);
        simpl; auto.
    - rewrite (scaleCanvas_changes w r wd ht Hc Ht Hu). unfold unchanged.
      destruct (_signaturePad w); [destruct (redrawOnResize (this_props w))|];
        simpl; now rewrite !Qeq_bool_refl. }
  assert (H3 : bind scaleCanvas (fun _ => scaleCanvas) w = scaleCanvas w).
  { unfold bind. destruct (scaleCanvas w) as [w1 [[]|e]] eqn:Hs; simpl in *.
    - exact H2.
    - reflexivity. }
  repeat split; auto.
  rewrite H3, (scaleCanvas_changes w r wd ht Hc Ht Hu).
  destruct (_signaturePad w); [destruct (redrawOnResize (this_props w))|];
    simpl; rewrite !resizes_app; unfold resizes; simpl; lia.
Qed.

Lemma scaleCanvas_idempotent_witness :
  bind scaleCanvas (fun _ => scaleCanvas) (mounted0 false) = scaleCanvas (mounted0 false) /\
  resizes (trace (fst (bind scaleCanvas (fun _ => scaleCanvas) (mounted0 false)))) = 1%nat.
Proof.
  destruct (proj2 (scaleCanvas_idempotent (mounted0 false) 2 600 300 eq_refl)
              eq_refl eq_refl) as (_ & H1 & H2).
  split; [exact H1 | exact H2].
Defined.

(** C7 as it is worded fails: a proxied engine method, and [scaleCanvas],
    invoked on a component that has neither canvas nor engine raise a
    [TypeError]. *)
Lemma proxies_are_not_guarded :
  _canvas fresh0 = false /\ _signaturePad fresh0 = None /\
  isEmpty fresh0 = (fresh0, Throw TypeError) /\
  scaleCanvas fresh0 = (fresh0, Throw TypeError) /\
  ~ guarded isEmpty /\ ~ guarded scaleCanvas.
Proof.
  repeat split.
  - intros H. specialize (H fresh0 (or_introl eq_refl)). discriminate H.
  - intros H. specialize (H fresh0 (or_introl eq_refl)). discriminate H.
Qed.

(** C7, as the code has it.  [componentDidMount] is guarded on the canvas
    reference: without it, mounting does nothing and raises nothing.
    [scaleCanvas] guards its engine calls on the engine: with a canvas and
    no engine it raises nothing and calls no engine method.  The proxied
    engine methods are not guarded: without an engine each raises a
    [TypeError] and changes nothing; and without a canvas reference
    [scaleCanvas] raises a [TypeError] unless both dimensions are fixed. *)
Theorem guards_of_the_component w :
  (_canvas w = false -> componentDidMount w = (w, Normal tt)) /\
  (_canvas w = true -> _signaturePad w = None ->
   snd (scaleCanvas w) = Normal tt /\ _signaturePad (fst (scaleCanvas w)) = None /\
   forall m, ~ In (PadCall m) (skipn (List.length (trace w)) (trace (fst (scaleCanvas w))))) /\
  (_signaturePad w = None ->
   isEmpty w = (w, Throw TypeError) /\ Pad.clear w = (w, Throw TypeError) /\
   (forall d, fromDataURL d w = (w, Throw TypeError)) /\
   (forall mime, toDataURL mime w = (w, Throw TypeError)) /\
   (forall d, fromData d w = (w, Throw TypeError)) /\
   toData w = (w, Throw TypeError) /\
   off w = (w, Throw TypeError) /\ on w = (w, Throw TypeError)) /\
  (_canvas w = false -> fixed_size (this_props w) = false ->
   scaleCanvas w = (w, Throw TypeError)).
Proof.
  split; [|split; [|split]].
  - intros Hc. unfold componentDidMount, bind, gets, when. rewrite Hc. reflexivity.
  - intros Hc Hp. destruct (target_total w Hc) as (r & wd & ht & Ht).
    destruct (unchanged wd ht w) eqn:Hu.
    + rewrite (scaleCanvas_same w r wd ht Ht Hu). simpl.
      rewrite skipn_all. repeat split; auto.
    + rewrite (scaleCanvas_changes w r wd ht Hc Ht Hu), Hp. simpl.
      rewrite skipn_app, skipn_all, Nat.sub_diag. simpl.
      repeat split; auto.
      intros m [H|[H|[H|[H|[]]]]]; discriminate H.
  - intros Hp. unfold_pad. rewrite Hp. repeat split.
  - intros Hc Hf. destruct w as [p el cv pad cw ch dpr ls tr]. simpl in *. subst cv.
    unfold fixed_size in Hf. unfold_pad. simpl.
    unfold truthy_num in Hf.
    destruct dpr as [q|]; [destruct (Qeq_bool q 0)|]; simpl;
      destruct (width p) as [a|]; try destruct (Qeq_bool a 0); simpl; try reflexivity;
      destruct (height p) as [b|]; try destruct (Qeq_bool b 0); simpl; try reflexivity;
      discriminate Hf.
Qed.

Lemma guards_of_the_component_witness :
  componentDidMount fresh0 = (fresh0, Normal tt) /\
  off fresh0 = (fresh0, Throw TypeError).
Proof.
  split.
  - exact (proj1 (guards_of_the_component fresh0) eq_refl).
  - apply (proj1 (proj2 (proj2 (guards_of_the_component fresh0)))). reflexivity.
Defined.

(** C8.  Mounting (with the canvas there) raises nothing and registers
    the debounced resize handler exactly when the size is not fixed, that
    is unless [width] and [height] are both given (and not zero);
    unmounting removes it under the same condition and otherwise leaves the
    listeners alone.  The handler is the trailing debounce of
    [handleResize]. *)
Theorem resize_listener_lifecycle w :
  _canvas w = true ->
  snd (componentDidMount w) = Normal tt /\
  this_props (fst (componentDidMount w)) = this_props w /\
  (if fixed_size (this_props w)
   then listeners (fst (componentDidMount w)) = listeners w
   else In CallResizeHandler (listeners (fst (componentDidMount w)))) /\
  (forall u, this_props u = this_props w ->
     if fixed_size (this_props w)
     then listeners (fst (componentWillUnmount u)) = listeners u
     else ~ In CallResizeHandler (listeners (fst (componentWillUnmount u)))) /\
  Limiter.debounceMode (_callResizeHandler (this_props w)) = VBool false.
Proof.
  intros Hc. destruct (componentDidMount_listeners w Hc) as (H1 & H2 & H3).
  split; [exact H1|]. split; [exact H2|]. split; [|split; [|reflexivity]].
  - rewrite H3. destruct (fixed_size (this_props w)); [reflexivity|].
    destruct (existsb (handler_eqb CallResizeHandler) (listeners w)) eqn:He.
    + apply existsb_exists in He. destruct He as ([|n] & Hin & Heq);
        [exact Hin | discriminate Heq].
    + apply in_or_app. right. left. reflexivity.
  - intros u Hu. rewrite componentWillUnmount_listeners, Hu.
    destruct (fixed_size (this_props w)); [reflexivity|].
    intros Hin. apply filter_In in Hin. destruct Hin as [_ Hin]. discriminate Hin.
Qed.

Lemma resize_listener_lifecycle_witness :
  In CallResizeHandler (listeners (fst (componentDidMount (mounted0 false)))).
Proof.
  exact (proj1 (proj2 (proj2 (resize_listener_lifecycle (mounted0 false) eq_refl)))).
Defined.

(** C9.  A value that is not a function given to the [onBegin] or [onEnd]
    setter raises the configuration error there and then, whatever the
    state of the component; a function is stored in the engine's property,
    without error. *)
Theorem callback_setters_check fn w :
  if is_function fn then
    forall e, _signaturePad w = Some e ->
      set_onBegin fn w =
        (log (PadSet "onBegin" fn) (set_signaturePad (Some (Engine.with_onBegin fn e)) w),
         Normal tt) /\
      set_onEnd fn w =
        (log (PadSet "onEnd" fn) (set_signaturePad (Some (Engine.with_onEnd fn e)) w),
         Normal tt)
  else
    set_onBegin fn w = (w, Throw (Error "Invalid argument passed to onBegin()")) /\
    set_onEnd fn w = (w, Throw (Error "Invalid argument passed to onEnd()")).
Proof.
  unfold set_onBegin, set_onEnd, pad_assign, throw.
  destruct (is_function fn); simpl; [intros e Hp; rewrite Hp|]; split; reflexivity.
Qed.

Lemma callback_setters_check_witness :
  option_map pad_onBegin (_signaturePad (fst (set_onBegin (VFun 3) (mounted0 false)))) =
    Some (VFun 3) /\
  set_onEnd (VStr "done") fresh0 =
    (fresh0, Throw (Error "Invalid argument passed to onEnd()")).
Proof.
  split.
  - rewrite (proj1 (callback_setters_check (VFun 3) (mounted0 false) engine0 eq_refl)).
    reflexivity.
  - exact (proj2 (callback_setters_check (VStr "done") fresh0)).
Defined.

(** C10.  The setters test their argument before they touch the engine:
    when the configuration error is raised the store, and so the engine's
    [onBegin] and [onEnd], is what it was.  More generally a setter either
    leaves the store as it was or completes normally. *)
Theorem callback_setters_atomic fn w :
  is_function fn = false ->
  (threw (snd (set_onBegin fn w)) = true /\ fst (set_onBegin fn w) = w) /\
  (threw (snd (set_onEnd fn w)) = true /\ fst (set_onEnd fn w) = w) /\
  (forall v, fst (set_onBegin v w) = w \/ snd (set_onBegin v w) = Normal tt) /\
  (forall v, fst (set_onEnd v w) = w \/ snd (set_onEnd v w) = Normal tt).
Proof.
  intros Hf. unfold set_onBegin, set_onEnd, pad_assign, throw. rewrite Hf. simpl.
  repeat split; intros v; destruct (is_function v); simpl; auto;
    destruct (_signaturePad w); simpl; auto.
Qed.

Lemma callback_setters_atomic_witness :
  fst (set_onBegin VNull (mounted0 true)) = mounted0 true.
Proof.
  exact (proj2 (proj1 (callback_setters_atomic VNull (mounted0 true) eq_refl))).
Defined.

End PadFacts.




(* ================================================================= *)
(** ** More properties of the rate limiter *)

Module LimiterMore.
Import Js Limiter LimiterSpec LimiterFacts.
Local Open Scope Z_scope.

(** *** What one call and one firing do to the table and to the record *)

Lemma leading_exec_timers c self args s :
  timers (fst (leading_exec c self args s)) = timers s.
Proof.
  unfold leading_exec, bind, gets, when.
  destruct (truthy (debounceMode c) && _); [apply exec_timers | reflexivity].
Qed.

Lemma filter_Forall {A} (P : A -> Prop) (p : A -> bool) (l : list A) :
  Forall P l -> Forall P (filter p l).
Proof.
  intros H. apply Forall_forall. intros x Hx. apply filter_In in Hx.
  rewrite Forall_forall in H. now apply H.
Qed.

Lemma wrapper_timers_Forall (P : positive * timer -> Prop) c self args s :
  Forall P (timers s) ->
  (forall id t, strict_eq (noTrailing c) (VBool true) = false ->
     P (id, {| due := t;
               act := if truthy (debounceMode c) then ActClear else ActExec self args |})) ->
  Forall P (timers (fst (wrapper c self args s))).
Proof.
  intros H Hnew. unfold wrapper, bind, gets.
  pose proof (leading_exec_timers c self args s) as Hl.
  destruct (leading_exec c self args s) as [s1 [[]|e]]; cbn [fst snd] in *;
    [|now rewrite Hl].
  rewrite <- Hl in H. clear Hl.
  assert (H2 : Forall P (timers (fst (clear_existing s1)))).
  { unfold clear_existing, bind, gets, clearTimeout, modify, ret.
    destruct (timeoutID s1); cbn; [now apply filter_Forall | exact H]. }
  assert (Hc : snd (clear_existing s1) = Normal tt).
  { unfold clear_existing, bind, gets, clearTimeout, modify, ret.
    destruct (timeoutID s1); reflexivity. }
  destruct (clear_existing s1) as [s2 r2]. cbn [fst snd] in *. subst r2.
  unfold exec_or_schedule.
  destruct (strict_eq (debounceMode c) VUndefined && _).
  - destruct (exec_timers c self args s2) as (-> & _). exact H2.
  - destruct (strict_eq (noTrailing c) (VBool true)) eqn:Hn; cbn; [exact H2|].
    apply Forall_app. split; [exact H2|]. constructor; [|constructor].
    apply Hnew. reflexivity.
Qed.

Lemma exec_calls_Forall (Q : call -> Prop) c self args s :
  Forall Q (calls s) ->
  (forall f, callback c = VFun f -> Q (executed f (now s) self args)) ->
  Forall Q (calls (fst (exec c self args s))).
Proof.
  intros H Hnew. unfold exec, bind, gets, modify, throw.
  destruct (callback c) eqn:Hc; cbn; try exact H.
  apply Forall_app. split; [exact H|]. constructor; [|constructor].
  now apply Hnew.
Qed.

Lemma exec_keeps c self args s :
  timers (fst (exec c self args s)) = timers s /\
  now (fst (exec c self args s)) = now s /\
  timeoutID (fst (exec c self args s)) = timeoutID s /\
  fresh (fst (exec c self args s)) = fresh s /\
  lastExec (fst (exec c self args s)) = now s.
Proof. unfold exec, bind, gets, modify, throw. destruct (callback c); cbn; auto. Qed.

Lemma wrapper_calls_Forall (Q : call -> Prop) c self args s :
  Forall Q (calls s) ->
  (forall f, callback c = VFun f -> Q (executed f (now s) self args)) ->
  Forall Q (calls (fst (wrapper c self args s))).
Proof.
  intros H Hnew. unfold wrapper, bind, gets.
  assert (H1 : Forall Q (calls (fst (leading_exec c self args s)))).
  { unfold leading_exec, bind, gets, when.
    destruct (truthy (debounceMode c) && _); [now apply exec_calls_Forall | exact H]. }
  assert (Hn : now (fst (leading_exec c self args s)) = now s).
  { unfold leading_exec, bind, gets, when.
    destruct (truthy (debounceMode c) && _); [apply exec_keeps | reflexivity]. }
  destruct (leading_exec c self args s) as [s1 [[]|e]]; cbn [fst snd] in *; [|exact H1].
  assert (H2 : calls (fst (clear_existing s1)) = calls s1 /\
               now (fst (clear_existing s1)) = now s1 /\
               snd (clear_existing s1) = Normal tt).
  { unfold clear_existing, bind, gets, clearTimeout, modify, ret.
    destruct (timeoutID s1); cbn; auto. }
  destruct (clear_existing s1) as [s2 r2]. cbn [fst snd] in *.
  destruct H2 as (Hc2 & Hn2 & ->).
  unfold exec_or_schedule.
  destruct (strict_eq (debounceMode c) VUndefined && _).
  - apply exec_calls_Forall; [now rewrite Hc2|]. now rewrite Hn2, Hn.
  - destruct (strict_eq (noTrailing c) (VBool true)); cbn; now rewrite Hc2.
Qed.

(** *** Provenance: what is executed was passed by some call *)

Lemma wrapper_from_calls c P self args s :
  P self args -> from_calls c P s -> from_calls c P (fst (wrapper c self args s)).
Proof.
  intros HP [Hc Ht]. split.
  - apply wrapper_calls_Forall; [exact Hc|]. intros f Hf. cbn. auto.
  - apply wrapper_timers_Forall; [exact Ht|]. intros id t _. cbn.
    destruct (truthy (debounceMode c)); auto.
Qed.

Lemma fire_from_calls c P id tm s :
  In (id, tm) (timers s) -> from_calls c P s -> from_calls c P (fire c id tm s).
Proof.
  intros Hin [Hc Ht]. split.
  - unfold fire. destruct (act tm) as [self args|] eqn:Ha; [|exact Hc].
    apply exec_calls_Forall; [exact Hc|]. intros f Hf. cbn. split; [exact Hf|].
    rewrite Forall_forall in Ht. specialize (Ht _ Hin). cbn in Ht.
    now rewrite Ha in Ht.
  - rewrite fire_timers. now apply filter_Forall.
Qed.

Lemma fire_due_from_calls c P fuel t s :
  from_calls c P s -> from_calls c P (fire_due c fuel t s).
Proof.
  revert s. induction fuel as [|k IH]; intros s H; cbn; [exact H|].
  destruct (earliest (timers s)) as [[id tm]|] eqn:He; [|exact H].
  destruct (due tm <=? t); [|exact H].
  apply IH, fire_from_calls; [|exact H]. now apply earliest_in.
Qed.

Lemma run_from_calls c P evs s :
  (forall self args, In (Call self args) evs -> P self args) ->
  from_calls c P s -> from_calls c P (run c evs s).
Proof.
  unfold run. revert s. induction evs as [|e evs IH]; intros s HP H; cbn; [exact H|].
  apply IH; [intros; apply HP; now right|].
  destruct e as [self args|t].
  - change (step c s (Call self args)) with (fst (wrapper c self args s)).
    apply wrapper_from_calls; [apply HP; now left | exact H].
  - change (step c s (Tick t)) with (advance c t s). unfold advance.
    pose proof (fire_due_from_calls c P (List.length (timers s)) t s H) as [H1 H2].
    split; assumption.
Qed.

(** X4.  Whatever the mode and the history, every execution of the callback
    runs the function given to [throttle], with the [this] and [arguments]
    of one of the calls made: the limiter never invents, mixes or alters
    what it passes on. *)
Theorem executions_come_from_calls c t0 evs x :
  In x (calls (run c evs (init t0))) ->
  callback c = VFun (call_fn x) /\ In (Call (call_this x) (call_args x)) evs.
Proof.
  intros Hin.
  assert (H : from_calls c (fun self args => In (Call self args) evs)
                (run c evs (init t0))).
  { apply run_from_calls; [auto|]. split; constructor. }
  destruct H as [H _]. rewrite Forall_forall in H. exact (H x Hin).
Qed.

Lemma executions_come_from_calls_witness :
  In (Call (VObj 0) [VStr "b"])
     [Tick 1000; Call (VObj 0) [VStr "a"]; Tick 1050; Call (VObj 0) [VStr "b"]; Tick 1200].
Proof.
  exact (proj2 (executions_come_from_calls
                  (throttle 100 (VBool false) (VFun 1) VUndefined) 0
                  [Tick 1000; Call (VObj 0) [VStr "a"]; Tick 1050;
                   Call (VObj 0) [VStr "b"]; Tick 1200]
                  (executed 1 1100 (VObj 0) [VStr "b"])
                  (or_intror (or_introl eq_refl)))).
Defined.



(** *** Modes in which no timeout runs the callback *)

Lemma fire_due_only_clear c fuel t s :
  only_clear s ->
  only_clear (fire_due c fuel t s) /\ calls (fire_due c fuel t s) = calls s.
Proof.
  revert s. induction fuel as [|k IH]; intros s H; cbn; [auto|].
  destruct (earliest (timers s)) as [[id tm]|] eqn:He; [|auto].
  destruct (due tm <=? t); [|auto].
  assert (Ha : act tm = ActClear).
  { unfold only_clear in H. rewrite Forall_forall in H.
    exact (H _ (earliest_in _ _ He)). }
  assert (Hf : only_clear (fire c id tm s) /\ calls (fire c id tm s) = calls s).
  { split.
    - unfold only_clear. rewrite fire_timers. now apply filter_Forall.
    - unfold fire. rewrite Ha. reflexivity. }
  destruct Hf as [Hf1 Hf2]. destruct (IH _ Hf1) as [H1 H2].
  split; [exact H1 | now rewrite H2].
Qed.

Lemma run_only_clear c evs s :
  strict_eq (noTrailing c) (VBool true) || truthy (debounceMode c) = true ->
  only_clear s -> only_clear (run c evs s).
Proof.
  intros Hm. unfold run. revert s. induction evs as [|e evs IH]; intros s H; cbn; [exact H|].
  apply IH. destruct e as [self args|t].
  - change (step c s (Call self args)) with (fst (wrapper c self args s)).
    apply wrapper_timers_Forall; [exact H|]. intros id t Hn. cbn.
    rewrite Hn in Hm. cbn in Hm. now rewrite Hm.
  - change (step c s (Tick t)) with (advance c t s). unfold advance.
    exact (proj1 (fire_due_only_clear c (List.length (timers s)) t s H)).
Qed.

(** X3.  When [noTrailing] is [true], or in leading debounce mode
    ([debounceMode] truthy), no timeout ever runs the callback: whatever the
    history, the passing of time executes nothing, so every execution
    happens inside a call of the wrapper; and with [noTrailing === true] in
    throttle mode no timeout is ever set. *)
Theorem no_deferred_execution c t0 evs T :
  strict_eq (noTrailing c) (VBool true) || truthy (debounceMode c) = true ->
  calls (advance c T (run c evs (init t0))) = calls (run c evs (init t0)) /\
  (truthy (debounceMode c) = false -> timers (run c evs (init t0)) = []).
Proof.
  intros Hm.
  assert (H : only_clear (run c evs (init t0))).
  { apply run_only_clear; [exact Hm | constructor]. }
  split.
  - unfold advance.
    exact (proj2 (fire_due_only_clear c _ T _ H)).
  - intros Hd. rewrite Hd, orb_false_r in Hm.
    assert (Hnil : forall evs' s, timers s = [] -> timers (run c evs' s) = []).
    { unfold run. induction evs' as [|e evs' IH]; intros s Hs; cbn; [exact Hs|].
      apply IH. destruct e as [self args|t].
      - change (step c s (Call self args)) with (fst (wrapper c self args s)).
        assert (HF : Forall (fun _ => False) (timers (fst (wrapper c self args s)))).
        { apply wrapper_timers_Forall; [rewrite Hs; constructor|].
          intros id t Hn. rewrite Hn in Hm. discriminate Hm. }
        destruct (timers (fst (wrapper c self args s))); [reflexivity|].
        inversion HF; contradiction.
      - change (step c s (Tick t)) with (advance c t s).
        rewrite advance_idle; [exact Hs|]. rewrite Hs. intros e []. }
    apply Hnil. reflexivity.
Qed.

Lemma no_deferred_execution_witness :
  let c := throttle 100 (VBool true) (VFun 1) VUndefined in
  let s := run c [Tick 1000; Call (VObj 0) [VStr "a"]; Tick 1050; Call (VObj 0) [VStr "b"]]
               (init 0) in
  calls (advance c 5000 s) = calls s.
Proof.
  exact (proj1 (no_deferred_execution (throttle 100 (VBool true) (VFun 1) VUndefined) 0
                  [Tick 1000; Call (VObj 0) [VStr "a"]; Tick 1050; Call (VObj 0) [VStr "b"]]
                  5000 eq_refl)).
Defined.

(** *** Throttle mode: the rate *)

Lemma apart_snoc d l y :
  apart d l -> Forall (fun x => call_time x + d <= call_time y) l ->
  apart d (l ++ [y]).
Proof.
  induction l as [|x r IH]; intros Ha Hf; cbn; [auto|].
  destruct Ha as [Hx Hr]. inversion Hf as [|? ? Hxy Hf']; subst.
  split; [|now apply IH].
  destruct r as [|z r']; cbn; [exact Hxy | exact Hx].
Qed.

Lemma exec_paced c self args s :
  0 <= delay c -> lastExec s + delay c <= now s -> timers s = [] ->
  apart (delay c) (calls s) -> Forall (fun x => call_time x <= lastExec s) (calls s) ->
  paced c (fst (exec c self args s)).
Proof.
  intros Hd Hn Ht Ha Hf. unfold paced.
  destruct (exec_keeps c self args s) as (-> & _ & _ & _ & ->). rewrite Ht.
  split; [|split; [|constructor]].
  - unfold exec, bind, gets, modify, throw. destruct (callback c); cbn; try exact Ha.
    apply apart_snoc; [exact Ha|]. cbn.
    eapply Forall_impl; [|exact Hf]. cbn. intros x Hx. lia.
  - apply exec_calls_Forall.
    + eapply Forall_impl; [|exact Hf]. cbn. intros x Hx. lia.
    + intros f _. cbn. lia.
Qed.

Lemma wrapper_paced c self args s :
  debounceMode c = VUndefined -> 0 <= delay c ->
  at_most_one s -> paced c s -> paced c (fst (wrapper c self args s)).
Proof.
  intros Hm Hd Hinv (Ha & Hf & Ht).
  rewrite wrapper_not_leading by (rewrite ?Hm; auto).
  unfold exec_or_schedule. rewrite Hm. cbn [strict_eq andb].
  destruct (delay c <? now s - lastExec s) eqn:Hlt.
  - apply Z.ltb_lt in Hlt. apply exec_paced; cbn; auto. lia.
  - apply Z.ltb_ge in Hlt.
    destruct (strict_eq (noTrailing c) (VBool true)); cbn.
    + unfold paced. cbn. repeat split; auto.
    + unfold paced. cbn. repeat split; auto. constructor; [|constructor]. cbn. lia.
Qed.

Lemma fire_paced c id tm s :
  0 <= delay c -> at_most_one s -> In (id, tm) (timers s) ->
  paced c s -> paced c (fire c id tm s).
Proof.
  intros Hd Hinv Hin (Ha & Hf & Ht).
  assert (Hnil : filter (fun e => negb (Pos.eqb (fst e) id)) (timers s) = []).
  { rewrite <- fire_timers with (c := c) (tm := tm). now apply fire_inv. }
  assert (Hdue : lastExec s + delay c <= due tm).
  { rewrite Forall_forall in Ht. exact (Ht _ Hin). }
  unfold fire. destruct (act tm) as [self args|].
  - apply exec_paced; cbn; auto. lia.
  - unfold paced. cbn. rewrite Hnil. repeat split; auto.
Qed.

Lemma fire_due_paced c fuel t s :
  0 <= delay c -> at_most_one s -> paced c s -> paced c (fire_due c fuel t s).
Proof.
  intros Hd. revert s. induction fuel as [|k IH]; intros s Hinv H; cbn; [exact H|].
  destruct (earliest (timers s)) as [[id tm]|] eqn:He; [|exact H].
  destruct (due tm <=? t); [|exact H].
  pose proof (earliest_in _ _ He) as Hin.
  apply IH; [now apply fire_inv | now apply fire_paced].
Qed.

Lemma run_paced c evs s :
  debounceMode c = VUndefined -> 0 <= delay c ->
  at_most_one s -> paced c s -> paced c (run c evs s).
Proof.
  intros Hm Hd. unfold run. revert s.
  induction evs as [|e evs IH]; intros s Hinv H; cbn; [exact H|].
  apply IH; [now apply step_inv|].
  destruct e as [self args|t].
  - change (step c s (Call self args)) with (fst (wrapper c self args s)).
    now apply wrapper_paced.
  - change (step c s (Tick t)) with (advance c t s). unfold advance.
    exact (fire_due_paced c (List.length (timers s)) t s Hd Hinv H).
Qed.

(** X1.  In throttle mode ([debounceMode] undefined, [delay >= 0]), whatever
    [noTrailing] is and however often and whenever the wrapper is called,
    two executions of the callback that follow one another are at least
    [delay] apart. *)
Theorem throttle_rate c t0 evs :
  debounceMode c = VUndefined -> 0 <= delay c ->
  apart (delay c) (calls (run c evs (init t0))).
Proof.
  intros Hm Hd.
  apply (run_paced c evs (init t0) Hm Hd); [exact I|].
  repeat split; constructor.
Qed.

Lemma throttle_rate_witness :
  apart 100
    (calls (run (throttle 100 (VFun 1) VUndefined VUndefined)
              [Tick 1000; Call (VObj 0) [VStr "a"]; Tick 1001; Call (VObj 0) [VStr "b"];
               Tick 1002; Call (VObj 0) [VStr "c"]; Tick 1300] (init 0))).
Proof.
  apply (throttle_rate (throttle 100 (VFun 1) VUndefined VUndefined) 0
           [Tick 1000; Call (VObj 0) [VStr "a"]; Tick 1001; Call (VObj 0) [VStr "b"];
            Tick 1002; Call (VObj 0) [VStr "c"]; Tick 1300]).
  - reflexivity.
  - cbn. lia.
Defined.

(** *** Leading debounce mode *)








End LimiterMore.




(* ================================================================= *)
(** ** More properties of the component *)

Module PadMore.
Import Js Pad PadSpec PadFacts.
Local Open Scope Q_scope.

Local Arguments Qmult : simpl never.
Local Arguments Qmax : simpl never.
Local Arguments Qeq_bool : simpl never.
Local Arguments Qle_bool : simpl never.
Local Arguments scaleCanvas : simpl never.
Local Arguments target : simpl never.

(** *** The target of a rescale *)

Lemma Qmax_one q : Qmax q 1 = if Qle_bool 1 q then q else 1.
Proof.
  unfold Qmax, GenericMinMax.gmax.
  destruct (Qle_bool 1 q) eqn:Hle.
  - apply Qle_bool_iff in Hle. destruct (q ?= 1) eqn:Hc; try reflexivity.
    apply Qlt_alt in Hc. exfalso. exact (Qlt_not_le _ _ Hc Hle).
  - destruct (q ?= 1) eqn:Hc; try reflexivity.
    + apply Qeq_alt in Hc. assert (Hle' : Qle_bool 1 q = true).
      { apply Qle_bool_iff. rewrite Hc. apply Qle_refl. }
      congruence.
    + apply Qgt_alt in Hc. assert (Hle' : Qle_bool 1 q = true).
      { apply Qle_bool_iff. now apply Qlt_le_weak. }
      congruence.
Qed.

Lemma target_closed w :
  _canvas w = true ->
  target w = (w, Normal (ratio_of w, css_width w * ratio_of w, css_height w * ratio_of w)).
Proof.
  intros Hc. destruct w as [p el cv pad cw ch dpr ls tr]. cbn in Hc. subst cv.
  unfold target, ratio_of, css_width, css_height, or_else, canvas_get, bind, gets, ret.
  cbn.
  assert (Hr : forall q, Qeq_bool q 0 = true -> (if Qle_bool 1 q then q else 1) = 1).
  { intros q Hq. apply Qeq_bool_iff in Hq. destruct (Qle_bool 1 q) eqn:Hle; [|reflexivity].
    apply Qle_bool_iff in Hle. rewrite Hq in Hle. unfold Qle in Hle. cbn in Hle. lia. }
  destruct dpr as [q|]; [destruct (Qeq_bool q 0) eqn:Hq|]; cbn;
    rewrite ?Qmax_one, ?(Hr _ Hq);
    destruct (width p) as [a|]; try destruct (Qeq_bool a 0); cbn;
    destruct (height p) as [b|]; try destruct (Qeq_bool b 0); cbn; reflexivity.
Qed.




Lemma scaleCanvas_zero w :
  _canvas w = true ->
  css_width w == 0 -> css_height w == 0 ->
  canvasWidth w == 0 -> canvasHeight w == 0 ->
  scaleCanvas w = (w, Normal tt).
Proof.
  intros Hc Hw Hh Hcw Hch.
  apply (scaleCanvas_same w _ _ _ (target_closed w Hc)).
  unfold unchanged. apply andb_true_intro. split; apply Qeq_bool_iff.
  - rewrite Hw, Hcw. apply Qmult_0_l.
  - rewrite Hh, Hch. apply Qmult_0_l.
Qed.

(** X7.  A canvas without layout size (both CSS dimensions zero, as for a
    hidden element with no fixed size) on a component whose tracked state is
    still the constructor's 0 by 0: the rescale finds nothing changed and
    returns at once; so mounting such a component attaches the engine to a
    canvas that keeps the backing store it had, with a context that is not
    scaled, and the tracked state stays 0 by 0. *)
Theorem scaleCanvas_zero_size_is_noop w :
  _canvas w = true ->
  css_width w == 0 -> css_height w == 0 ->
  canvasWidth w == 0 -> canvasHeight w == 0 ->
  scaleCanvas w = (w, Normal tt) /\
  snd (componentDidMount w) = Normal tt /\
  el_width (element (fst (componentDidMount w))) = el_width (element w) /\
  el_height (element (fst (componentDidMount w))) = el_height (element w) /\
  ctx_scale (element (fst (componentDidMount w))) = ctx_scale (element w) /\
  canvasWidth (fst (componentDidMount w)) = canvasWidth w /\
  canvasHeight (fst (componentDidMount w)) = canvasHeight w /\
  resizes (trace (fst (componentDidMount w))) = resizes (trace w).
Proof.
  intros Hc Hw Hh Hcw Hch. split; [now apply scaleCanvas_zero|].
  unfold componentDidMount, bind, gets, when, ret, modify, canvas_set, addEventListener.
  cbv beta iota. rewrite Hc, !not_fixed. cbv beta iota.
  destruct (fixed_size (this_props w)); cbn [negb]; cbv beta iota.
  - rewrite (scaleCanvas_zero w Hc Hw Hh Hcw Hch). cbn -[resizes].
    rewrite !resizes_app. cbn. repeat split; auto; lia.
  - rewrite Hc. cbv beta iota.
    set (w0 := log (SetStyleWidth "100%")
                 (set_element (with_style_width "100%" (element w)) w)).
    rewrite (scaleCanvas_zero w0 Hc Hw Hh Hcw Hch). cbn -[resizes].
    destruct (existsb (handler_eqb CallResizeHandler) (listeners w)); cbn -[resizes];
      rewrite !resizes_app; cbn; repeat split; auto; try lia.
Qed.

Lemma scaleCanvas_zero_size_is_noop_witness :
  let hidden :=
    {| offsetWidth := 0; offsetHeight := 0; el_width := 300; el_height := 150;
       style_width := ""; bitmap := ""; ctx_scale := (1, 1) |} in
  let w := set_canvas_ref true (construct (props0 false) hidden (Some 2) []) in
  scaleCanvas w = (w, Normal tt) /\
  el_width (element (fst (componentDidMount w))) = 300.
Proof.
  cbv zeta.
  destruct (scaleCanvas_zero_size_is_noop
              (set_canvas_ref true
                 (construct (props0 false)
                    {| offsetWidth := 0; offsetHeight := 0; el_width := 300;
                       el_height := 150; style_width := ""; bitmap := "";
                       ctx_scale := (1, 1) |} (Some 2) []))
              eq_refl eq_refl eq_refl eq_refl eq_refl) as (H1 & _ & H2 & _).
  split; [exact H1 | exact H2].
Defined.

(** *** Mounting and unmounting *)

Lemma componentDidMount_engine w :
  _canvas w = true ->
  exists e, _signaturePad (fst (componentDidMount w)) = Some e /\
            pad_listening e = true /\ pad_empty e = true.
Proof.
  intros Hc.
  unfold componentDidMount, bind, gets, when, ret, modify, canvas_set, addEventListener.
  cbv beta iota. rewrite Hc, !not_fixed. cbv beta iota.
  destruct (fixed_size (this_props w)); cbn [negb]; cbv beta iota.
  - destruct (scaleCanvas_frame w Hc) as (H1 & _).
    destruct (scaleCanvas w) as [w1 r1]. cbn [fst snd] in *. subst r1.
    cbn. eexists. repeat split.
  - rewrite Hc. cbv beta iota.
    set (w0 := log (SetStyleWidth "100%")
                 (set_element (with_style_width "100%" (element w)) w)).
    assert (Hc0 : _canvas w0 = true) by exact Hc.
    destruct (scaleCanvas_frame w0 Hc0) as (H1 & _).
    destruct (scaleCanvas w0) as [w1 r1]. cbn [fst snd] in *. subst r1.
    cbn. eexists. repeat split.
Qed.

Lemma componentWillUnmount_engine w e :
  _signaturePad w = Some e ->
  snd (componentWillUnmount w) = Normal tt /\
  _signaturePad (fst (componentWillUnmount w)) = Some (Engine.with_listening false e).
Proof.
  intros Hp. destruct w as [p el cv pad cw ch dpr ls tr]. cbn in Hp. subst pad.
  unfold componentWillUnmount, off, pad_call, removeEventListener, when, bind, gets,
    modify, ret.
  cbn. destruct (negb (truthy_num (width p)) || negb (truthy_num (height p))); cbn; auto.
Qed.

Lemma filter_out_last l :
  existsb (handler_eqb CallResizeHandler) l = false ->
  filter (fun x => negb (handler_eqb CallResizeHandler x)) (l ++ [CallResizeHandler]) = l.
Proof.
  intros H. rewrite filter_app. cbn. rewrite app_nil_r.
  induction l as [|a l IH]; [reflexivity|]. cbn in *.
  apply orb_false_iff in H. destruct H as [Ha Hl]. rewrite Ha. cbn. now rewrite IH.
Qed.

(** X8.  A whole life of the component: mounting (with the canvas there)
    and then unmounting raises nothing, leaves the window's resize listeners
    exactly as they were before the mount, whether the size is fixed or not,
    and leaves the engine attached with input capture switched off. *)
Theorem mount_then_unmount w :
  _canvas w = true ->
  existsb (handler_eqb CallResizeHandler) (listeners w) = false ->
  snd (componentDidMount w) = Normal tt /\
  snd (componentWillUnmount (fst (componentDidMount w))) = Normal tt /\
  listeners (fst (componentWillUnmount (fst (componentDidMount w)))) = listeners w /\
  option_map pad_listening
    (_signaturePad (fst (componentWillUnmount (fst (componentDidMount w))))) = Some false.
Proof.
  intros Hc Hl.
  destruct (componentDidMount_listeners w Hc) as (H1 & H2 & H3).
  destruct (componentDidMount_engine w Hc) as (e & He & _).
  destruct (componentWillUnmount_engine _ e He) as (H4 & H5).
  split; [exact H1|]. split; [exact H4|]. split.
  - rewrite componentWillUnmount_listeners, H2, H3, Hl.
    destruct (fixed_size (this_props w)); [reflexivity|]. now apply filter_out_last.
  - rewrite H5. reflexivity.
Qed.

Lemma mount_then_unmount_witness :
  listeners (fst (componentWillUnmount (fst (componentDidMount (mounted0 false))))) = [].
Proof.
  exact (proj1 (proj2 (proj2 (mount_then_unmount (mounted0 false) eq_refl eq_refl)))).
Defined.

End PadMore.


(* ================================================================= *)
(** ** Properties of objects, [render] and the pass-through properties *)

Module ObjFacts.
Import Js Obj.

Lemma get_set_same k v o : get k (set k v o) = Some v.
Proof.
  induction o as [|[k' v'] r IH]; cbn.
  - now rewrite String.eqb_refl.
  - destruct (String.eqb k k') eqn:He; cbn; [now rewrite String.eqb_refl|].
    now rewrite He.
Qed.

Lemma get_set_other k k' v o : k' <> k -> get k' (set k v o) = get k' o.
Proof.
  intros Hne. induction o as [|[k1 v1] r IH]; cbn.
  - destruct (String.eqb k' k) eqn:He; [apply String.eqb_eq in He; contradiction|].
    reflexivity.
  - destruct (String.eqb k k1) eqn:He; cbn.
    + apply String.eqb_eq in He. subst k1.
      destruct (String.eqb k' k) eqn:He'; [apply String.eqb_eq in He'; contradiction|].
      reflexivity.
    + destruct (String.eqb k' k1); [reflexivity | exact IH].
Qed.

Lemma get_absent k o : ~ In k (map fst o) -> get k o = None.
Proof.
  induction o as [|[k' v'] r IH]; cbn; intros H; [reflexivity|].
  destruct (String.eqb k k') eqn:He.
  - apply String.eqb_eq in He. subst. exfalso. apply H. now left.
  - apply IH. intros Hin. apply H. now right.
Qed.

Lemma copy_own_get k src t :
  wf src ->
  get k (copy_own t (Some src)) =
    match get k src with Some v => Some v | None => get k t end.
Proof.
  unfold copy_own, wf. revert t. induction src as [|[k1 v1] r IH]; intros t Hwf; cbn.
  - reflexivity.
  - inversion Hwf as [|? ? Hnotin Hwf']; subst. rewrite (IH _ Hwf'). cbn.
    destruct (String.eqb k k1) eqn:He.
    + apply String.eqb_eq in He. subst k1.
      rewrite (get_absent _ _ Hnotin). apply get_set_same.
    + destruct (get k r); [reflexivity|].
      apply get_set_other. intros ->. now rewrite String.eqb_refl in He.
Qed.

(** X9.  [_extends]: a later source wins over an earlier one and over the
    target, property by property; what no source has keeps the target's
    value; and a source that is [undefined] or [null] is skipped. *)
Theorem extends_lookup target srcs src k :
  wf src ->
  get k (_extends target (srcs ++ [Some src])) =
    match get k src with
    | Some v => Some v
    | None => get k (_extends target srcs)
    end /\
  _extends target (srcs ++ [None]) = _extends target srcs.
Proof.
  intros Hwf. unfold _extends. rewrite !fold_left_app. cbn [fold_left]. split.
  - now apply copy_own_get.
  - reflexivity.
Qed.

Lemma extends_lookup_witness :
  get "width" (_extends [("width"%string, VNum 1); ("id"%string, VStr "a")]
                 ([] ++ [Some [("width"%string, VNum 2)]])) = Some (VNum 2).
Proof.
  exact (proj1 (extends_lookup [("width"%string, VNum 1); ("id"%string, VStr "a")] []
                  [("width"%string, VNum 2)] "width"
                  (NoDup_cons _ (@in_nil _ _) (NoDup_nil _)))).
Defined.

(** X10.  [render] creates a [canvas] element whose props are all of
    [canvasProps] plus the component's [ref] callback; but a [ref] among
    [canvasProps] replaces the component's own.  Without [canvasProps] the
    [ref] is the only prop. *)
Theorem render_props cp k :
  wf cp ->
  fst (render (Some cp)) = "canvas"%string /\
  get k (snd (render (Some cp))) =
    match get k cp with
    | Some v => Some v
    | None => if String.eqb k "ref" then Some (VFun ref_callback) else None
    end /\
  render None = ("canvas"%string, [("ref"%string, VFun ref_callback)]).
Proof.
  intros Hwf. split; [reflexivity|]. split; [|reflexivity].
  unfold render, _extends. cbn [snd fold_left]. rewrite (copy_own_get k cp _ Hwf).
  reflexivity.
Qed.

Lemma render_props_witness :
  get "ref" (snd (render (Some [("ref"%string, VFun 9)]))) = Some (VFun 9).
Proof.
  exact (proj1 (proj2 (render_props [("ref"%string, VFun 9)] "ref"
                         (NoDup_cons _ (@in_nil _ _) (NoDup_nil _))))).
Defined.

End ObjFacts.

Module SettingsFacts.
Import Js Settings.

Lemma key_inj p q : key p = key q -> p = q.
Proof. destruct p, q; cbn; intros H; try reflexivity; discriminate H. Qed.

(** X11.  The seven pass-through properties, with an engine attached: a
    setter accepts any value without checking it and never raises; reading
    a property after setting it gives the value set; and setting one
    property leaves what the six others read unchanged. *)
Theorem setting_round_trip p v w e :
  Pad._signaturePad (core w) = Some e ->
  snd (set p v w) = Normal tt /\
  snd (bind (set p v) (fun _ => get p) w) = Normal v /\
  forall q, q <> p -> snd (bind (set p v) (fun _ => get q) w) = snd (get q w).
Proof.
  intros He. unfold bind, set, get. rewrite He. cbn. rewrite He.
  split; [reflexivity|]. split.
  - now rewrite ObjFacts.get_set_same.
  - intros q Hq. rewrite ObjFacts.get_set_other; [reflexivity|].
    intros Hk. apply Hq. now apply key_inj.
Qed.

Lemma setting_round_trip_witness :
  snd (bind (set PenColor (VStr "red")) (fun _ => get PenColor)
         {| core := Pad.mounted0 false; own := [] |}) = Normal (VStr "red").
Proof.
  exact (proj1 (proj2 (setting_round_trip PenColor (VStr "red")
                         {| core := Pad.mounted0 false; own := [] |} Pad.engine0 eq_refl))).
Defined.

End SettingsFacts.
